(** * Running Elo ratings of [examples/analyze_results.py]

    A shallow embedding of the rating part of the script: the pairwise
    transfer [_elo_change], the per-game update [update_elos], and the part
    of [main] that ranks every game and folds the games into a rating
    history under a decaying learning rate.

    Python floats are read as real numbers (exact arithmetic); the last
    part, [B64], reads the same lines in IEEE binary64 and shows where
    rounding and overflow make the running code differ.  Python subscripts
    keep their
    meaning: a negative index counts from the end and an index out of range
    raises [IndexError], modelled by [None]. *)

From Stdlib Require Import Reals Lra Lia ZArith.
From stdpp Require Import base option list sorting strings.
From Stdlib Require QArith.
From Corelib Require PrimFloat FloatOps SpecFloat Uint63Axioms.

Local Open Scope R_scope.

(** ** Python sequences *)

Module Py.

(** [seq[i]] on a sequence of length [n]: the position read, if any. *)
Definition index (n : nat) (i : Z) : option nat :=
  if bool_decide (0 ≤ i < Z.of_nat n)%Z then Some (Z.to_nat i)
  else if bool_decide (- Z.of_nat n ≤ i < 0)%Z then Some (Z.to_nat (i + Z.of_nat n))
  else None.

Definition getitem {A} (l : list A) (i : Z) : option A :=
  j ← index (length l) i; l !! j.

Definition setitem {A} (l : list A) (i : Z) (v : A) : option (list A) :=
  j ← index (length l) i; Some (<[j:=v]> l).

(** [range(a, b)] for naturals. *)
Definition range (a b : nat) : list nat := seq a (b - a).

(** [enumerate(l)] *)
Definition enumerate {A} (l : list A) : list (nat * A) :=
  zip (seq 0 (length l)) l.

(** A [for] loop whose body may raise: the state is threaded through the
    items in order and the first failure aborts the loop. *)
Fixpoint for_each {S A} (body : S → A → option S) (items : list A) (s : S)
    : option S :=
  match items with
  | [] => Some s
  | x :: items' => s' ← body s x; for_each body items' s'
  end.

End Py.

(** ** The pairwise transfer and the per-game update

    [_elo_change] (lines 87-89) and [update_elos] (lines 92-103). *)

Definition _elo_change (rating_loser rating_winner k : R) : R :=
  let gap := rating_winner - rating_loser in
  k / (1 + Rpower 10 (gap / 400)).

(** One turn of the loop of [update_elos], at position [j] of the ranking. *)
Definition update_elos_body (current_elos : list R) (ranking : list Z)
    (elo_k : R) (elo_change : list R) (j : nat) : option (list R) :=
  idx_loser ← Py.getitem ranking (Z.of_nat j - 1);
  idx_winner ← Py.getitem ranking (Z.of_nat j);
  rating_loser ← Py.getitem current_elos idx_loser;
  rating_winner ← Py.getitem current_elos idx_winner;
  let delta := _elo_change rating_loser rating_winner elo_k in
  old_loser ← Py.getitem elo_change idx_loser;
  elo_change ← Py.setitem elo_change idx_loser (old_loser - delta);
  old_winner ← Py.getitem elo_change idx_winner;
  Py.setitem elo_change idx_winner (old_winner + delta).

Definition update_elos (current_elos : list R) (ranking : list Z) (elo_k : R)
    : option (list R) :=
  let num_players := length current_elos in
  let elo_change := replicate num_players 0 in
  Py.for_each (update_elos_body current_elos ranking elo_k)
    (Py.range 1 num_players) elo_change.

(** ** numpy's [argsort]

    [argsort] belongs to numpy, not to the script.  It enters the model
    through its documented contract: the result holds the indices that would
    sort the array.  The script calls it with the default [kind], which numpy
    does not document as stable, so nothing is assumed about the order of
    equal elements. *)

#[global] Instance R_inhabited : Inhabited R := populate 0.

Module Np.

(** [a[p]] for an index array [p] of valid, non-negative indices. *)
Definition gather `{Inhabited A} (a : list A) (p : list Z) : list A :=
  (λ i, a !!! Z.to_nat i) <$> p.

(** [np.arange(n)] *)
Definition arange (n : nat) : list Z := Z.of_nat <$> seq 0 n.

Definition sorts `{Inhabited A} (le : relation A) (a : list A) (p : list Z)
    : Prop :=
  p ≡ₚ arange (length a) ∧ Sorted le (gather a p).

Class Argsort (A : Type) `{Inhabited A} (le : relation A) := {
  argsort : list A → list Z;
  argsort_sorts : ∀ a, sorts le a (argsort a)
}.

End Np.

(** ** The part of [main] that ranks the games and runs the ratings

    The dense ranks of line 23 and the rating loop of lines 68-73.  The
    loop carries the array [elos] and the learning rate [k]. *)

Record loop_state := LoopState { elos : list (list R); k : R }.

Section Main.

Context `{!Np.Argsort R Rle} `{!Np.Argsort Z Z.le}.

(** One row of [num_players - scores.values.argsort().argsort()]. *)
Definition ranks_row (num_players : nat) (s : list R) : list Z :=
  (λ r, Z.of_nat num_players - r)%Z <$> Np.argsort (Np.argsort s).

Definition ranks (num_players : nat) (scores : list (list R))
    : list (list Z) :=
  ranks_row num_players <$> scores.

(** [1500 + np.arange(num_players)] *)
Definition seed (num_players : nat) : list R :=
  (λ i, 1500 + IZR i) <$> Np.arange num_players.

(** The state on entry to the loop: [elos] allocated with zeros, its row 0
    seeded, and [k = 20]. *)
Definition elo_init (num_games num_players : nat) : option loop_state :=
  let elos := replicate (num_games + 1) (replicate num_players 0) in
  elos ← Py.setitem elos 0 (seed num_players);
  Some (LoopState elos 20).

(** The body of [for i, s in enumerate(scores.values)]. *)
Definition elo_game (st : loop_state) (g : nat * list R)
    : option loop_state :=
  let '(i, s) := g in
  current ← Py.getitem (elos st) (Z.of_nat i);
  change ← update_elos current (Np.argsort s) (k st);
  elos' ← Py.setitem (elos st) (Z.of_nat i + 1) (zip_with Rplus current change);
  Some (LoopState elos' (Rmax (0.99 * k st) 1)).

(** The state after the first [n] turns of the loop. *)
Definition elo_after (n num_players : nat) (scores : list (list R))
    : option loop_state :=
  st ← elo_init (length scores) num_players;
  Py.for_each elo_game (take n (Py.enumerate scores)) st.

(** The state when the loop is over. *)
Definition running_elos (num_players : nat) (scores : list (list R))
    : option loop_state :=
  st ← elo_init (length scores) num_players;
  Py.for_each elo_game (Py.enumerate scores) st.

End Main.

(** The score table is a rectangular array: every row has [num_players]
    entries. *)
Definition rectangular (num_players : nat) (scores : list (list R)) : Prop :=
  Forall (λ s, length s = num_players) scores.

(** ** Definitions used to state the properties *)

(** The sum of a rating vector. *)
Fixpoint sum_R (l : list R) : R :=
  match l with
  | [] => 0
  | x :: l' => x + sum_R l'
  end.

(** The transfer of the pair of positions [j - 1] and [j] of the ranking,
    computed from [current_elos]. *)
Definition pair_delta (current_elos : list R) (ranking : list Z) (elo_k : R)
    (j : nat) : R :=
  _elo_change (current_elos !!! Z.to_nat (ranking !!! (j - 1)%nat))
    (current_elos !!! Z.to_nat (ranking !!! j)) elo_k.

(** What player [p] receives from the pair of positions [j - 1] and [j] of
    the ranking: the transfer is computed from [current_elos], the player in
    position [j] receives it and the player in position [j - 1] pays it. *)
Definition pair_gain (current_elos : list R) (ranking : list Z) (elo_k : R)
    (j p : nat) : R :=
  let delta := pair_delta current_elos ranking elo_k j in
  (if decide (ranking !!! j = Z.of_nat p) then delta else 0)
  - (if decide (ranking !!! (j - 1)%nat = Z.of_nat p) then delta else 0).

(** What player [p] receives in the whole game. *)
Definition game_gain (current_elos : list R) (ranking : list Z) (elo_k : R)
    (p : nat) : R :=
  sum_R ((λ j, pair_gain current_elos ranking elo_k j p)
           <$> Py.range 1 (length current_elos)).



(** The learning rate after [n] games. *)
Definition k_after (n : nat) : R := Nat.iter n (λ k, Rmax (0.99 * k) 1) 20.

(** What holds of the loop state once [n] games are in. *)
Definition elo_inv (P G n : nat) (st : loop_state) : Prop :=
  length (elos st) = (G + 1)%nat
  ∧ Forall (λ row, length row = P) (elos st)
  ∧ elos st !! 0%nat = Some (seed P)
  ∧ (∀ i, (i ≤ n)%nat → ∃ row, elos st !! i = Some row ∧ sum_R row = sum_R (seed P))
  ∧ k st = k_after n.

(** Decidable comparisons of real numbers, as the classical reals give them. *)
#[global] Instance Rle_dec_rel : RelDecision Rle := Rle_dec.
#[global] Instance R_eq_dec : EqDecision R := Req_dec_T.

(** Indices compared by the elements they point to. *)
Definition le_at `{Inhabited A} (le : relation A) (a : list A) : relation Z :=
  λ i j, le (a !!! Z.to_nat i) (a !!! Z.to_nat j).

#[global] Instance le_at_dec `{Inhabited A} (le : relation A) `{!RelDecision le}
    (a : list A) : RelDecision (le_at le a) :=
  λ i j, decide_rel le (a !!! Z.to_nat i) (a !!! Z.to_nat j).

(** An [argsort] that meets the contract: merge sort on the indices. *)
Definition merge_argsort `{Inhabited A} (le : relation A) `{!RelDecision le}
    (a : list A) : list Z :=
  merge_sort (le_at le a) (Np.arange (length a)).

(** An [argsort] that meets the contract and returns [on_tie] on the row
    [[1; 1]]. *)
Definition argsort_with_tie (on_tie : list Z) (a : list R) : list Z :=
  if decide (a = [1; 1]) then on_tie else merge_argsort Rle a.

(** * Properties *)

(** ** Python subscripts *)

Lemma index_of_nat n i : (i < n)%nat → Py.index n (Z.of_nat i) = Some i.
Proof.
  intros Hi. unfold Py.index.
  rewrite bool_decide_eq_true_2 by lia. by rewrite Nat2Z.id.
Qed.

Lemma getitem_of_nat {A} (l : list A) i :
  Py.getitem l (Z.of_nat i) = l !! i.
Proof.
  unfold Py.getitem. destruct (decide (i < length l)%nat) as [Hi|Hi].
  - by rewrite index_of_nat.
  - rewrite (lookup_ge_None_2 l i) by lia.
    unfold Py.index. rewrite !bool_decide_eq_false_2 by lia. done.
Qed.

Lemma setitem_of_nat {A} (l : list A) i v :
  (i < length l)%nat → Py.setitem l (Z.of_nat i) v = Some (<[i:=v]> l).
Proof. intros Hi. unfold Py.setitem. by rewrite index_of_nat. Qed.

Lemma for_each_app {S A} (body : S → A → option S) xs ys s :
  Py.for_each body (xs ++ ys) s = s' ← Py.for_each body xs s; Py.for_each body ys s'.
Proof.
  revert s. induction xs as [|x xs IH]; intros s; simpl; [done|].
  destruct (body s x); simpl; [apply IH | done].
Qed.

Lemma for_each_snoc {S A} (body : S → A → option S) xs x s :
  Py.for_each body (xs ++ [x]) s = s' ← Py.for_each body xs s; body s' x.
Proof.
  rewrite for_each_app. destruct (Py.for_each body xs s) as [s1|]; [|done].
  simpl. by destruct (body s1 x).
Qed.

(** ** Sums of rating vectors *)

Lemma sum_R_insert l j old v :
  l !! j = Some old → sum_R (<[j:=v]> l) = sum_R l - old + v.
Proof.
  revert j. induction l as [|x l IH]; intros [|j] Hj; simplify_eq/=.
  - lra.
  - rewrite (IH j) by done. lra.
Qed.

Lemma sum_R_replicate_0 n : sum_R (replicate n 0) = 0.
Proof. induction n as [|n IH]; simpl; [done | rewrite IH; lra]. Qed.

Lemma sum_R_zip_with_plus a b :
  length a = length b → sum_R (zip_with Rplus a b) = sum_R a + sum_R b.
Proof.
  revert b. induction a as [|x a IH]; intros [|y b] Hlen; simplify_eq/=.
  - lra.
  - rewrite IH by done. lra.
Qed.

Lemma for_each_preserves {S A} (I : S → Prop) (body : S → A → option S) xs s s' :
  (∀ s x s', body s x = Some s' → I s → I s') →
  Py.for_each body xs s = Some s' → I s → I s'.
Proof.
  intros Hbody. revert s. induction xs as [|x xs IH]; intros s Hrun Hs; simplify_eq/=.
  - done.
  - destruct (body s x) as [s1|] eqn:Hb; simplify_eq/=. eauto.
Qed.

(** ** The per-game update *)

(** A turn of the loop moves rating between two entries of [elo_change]
    and leaves its length and its total alone. *)
Lemma update_elos_body_sum current_elos ranking elo_k elo_change j elo_change' :
  update_elos_body current_elos ranking elo_k elo_change j = Some elo_change' →
  length elo_change' = length elo_change ∧ sum_R elo_change' = sum_R elo_change.
Proof.
  unfold update_elos_body, Py.getitem, Py.setitem. intros H.
  simplify_option_eq.
  rewrite !length_insert. split; [done|].
  erewrite !sum_R_insert by eassumption. lra.
Qed.

(** Whatever the ranking, a change vector that [update_elos] returns has one
    entry per player and sums to zero. *)
Lemma update_elos_sum current_elos ranking elo_k elo_change :
  update_elos current_elos ranking elo_k = Some elo_change →
  length elo_change = length current_elos ∧ sum_R elo_change = 0.
Proof.
  unfold update_elos. intros H.
  eapply (for_each_preserves
    (λ c, length c = length current_elos ∧ sum_R c = 0)) in H; [done| |].
  - intros c j c' Hb [Hlen Hsum].
    apply update_elos_body_sum in Hb as [-> ->]. done.
  - by rewrite length_replicate, sum_R_replicate_0.
Qed.

(** Rankings that are permutations of the player indices. *)
Lemma arange_lookup (ranking : list Z) n j :
  ranking ≡ₚ Np.arange n → (j < n)%nat →
  ∃ a, (a < n)%nat ∧ ranking !! j = Some (Z.of_nat a).
Proof.
  intros Hperm Hj.
  assert (length ranking = n) as Hlen.
  { rewrite Hperm. unfold Np.arange. by rewrite length_fmap, length_seq. }
  destruct (lookup_lt_is_Some_2 ranking j) as [x Hx]; [lia|].
  assert (x ∈ Np.arange n) as Hin.
  { rewrite <- Hperm. by eapply list_elem_of_lookup_2. }
  unfold Np.arange in Hin. apply list_elem_of_fmap in Hin as (a & -> & Ha).
  apply elem_of_seq in Ha. exists a. split; [lia | done].
Qed.

Lemma update_elos_body_perm current_elos ranking elo_k elo_change j :
  ranking ≡ₚ Np.arange (length current_elos) →
  length elo_change = length current_elos →
  (1 ≤ j < length current_elos)%nat →
  ∃ elo_change',
    update_elos_body current_elos ranking elo_k elo_change j = Some elo_change'
    ∧ length elo_change' = length current_elos
    ∧ ∀ p, elo_change' !! p
           = (λ x, x + pair_gain current_elos ranking elo_k j p) <$> elo_change !! p.
Proof.
  intros Hperm Hlen Hj.
  destruct (arange_lookup ranking _ (j - 1) Hperm) as (a & Ha & Hra); [lia|].
  destruct (arange_lookup ranking _ j Hperm) as (b & Hb & Hrb); [lia|].
  destruct (lookup_lt_is_Some_2 current_elos a Ha) as [ra Hca].
  destruct (lookup_lt_is_Some_2 current_elos b Hb) as [rb Hcb].
  destruct (lookup_lt_is_Some_2 elo_change a) as [ol Hol]; [lia|].
  set (delta := _elo_change ra rb elo_k).
  set (c1 := <[a:=ol - delta]> elo_change).
  destruct (lookup_lt_is_Some_2 c1 b) as [ow How].
  { unfold c1. rewrite length_insert. lia. }
  exists (<[b:=ow + delta]> c1).
  assert (∀ p, pair_gain current_elos ranking elo_k j p
               = (if decide (b = p) then delta else 0)
                 - (if decide (a = p) then delta else 0)) as Hgain.
  { intros p. unfold pair_gain, pair_delta.
    rewrite (list_lookup_total_correct _ _ _ Hra), (list_lookup_total_correct _ _ _ Hrb).
    rewrite !Nat2Z.id.
    rewrite (list_lookup_total_correct _ _ _ Hca), (list_lookup_total_correct _ _ _ Hcb).
    fold delta. repeat case_decide; (lia || done). }
  split_and!.
  - unfold update_elos_body.
    replace (Z.of_nat j - 1)%Z with (Z.of_nat (j - 1)) by lia.
    rewrite !getitem_of_nat, Hra, Hrb. simpl.
    rewrite !getitem_of_nat, Hca, Hcb, Hol. simpl.
    rewrite setitem_of_nat by lia. simpl. fold delta c1.
    rewrite getitem_of_nat, How. simpl.
    apply setitem_of_nat. unfold c1. rewrite length_insert. lia.
  - unfold c1. rewrite !length_insert. done.
  - intros p. rewrite Hgain.
    destruct (decide (b = p)) as [<-|Hbp].
    + rewrite list_lookup_insert_eq by (unfold c1; rewrite length_insert; lia).
      revert How. unfold c1. destruct (decide (a = b)) as [<-|Hab].
      * rewrite list_lookup_insert_eq by lia. intros [= <-].
        rewrite Hol. simpl. f_equal. lra.
      * rewrite list_lookup_insert_ne by done. intros ->. simpl. f_equal. lra.
    + rewrite list_lookup_insert_ne by done. unfold c1.
      destruct (decide (a = p)) as [<-|Hap].
      * rewrite list_lookup_insert_eq by lia. rewrite Hol. simpl. f_equal. lra.
      * rewrite list_lookup_insert_ne by done.
        destruct (elo_change !! p); simpl; [f_equal; lra | done].
Qed.

Lemma update_elos_loop current_elos ranking elo_k js elo_change :
  ranking ≡ₚ Np.arange (length current_elos) →
  length elo_change = length current_elos →
  Forall (λ j, 1 ≤ j < length current_elos)%nat js →
  ∃ elo_change',
    Py.for_each (update_elos_body current_elos ranking elo_k) js elo_change
      = Some elo_change'
    ∧ length elo_change' = length current_elos
    ∧ ∀ p, elo_change' !! p
           = (λ x, x + sum_R ((λ j, pair_gain current_elos ranking elo_k j p) <$> js))
               <$> elo_change !! p.
Proof.
  intros Hperm. revert elo_change.
  induction js as [|j js IH]; intros elo_change Hlen Hjs.
  - exists elo_change. split_and!; [done..|]. intros p. simpl.
    destruct (elo_change !! p); simpl; [f_equal; lra | done].
  - apply Forall_cons in Hjs as [Hj Hjs].
    destruct (update_elos_body_perm current_elos ranking elo_k elo_change j)
      as (c1 & Hc1 & Hlen1 & Hget1); [done..|].
    destruct (IH c1 Hlen1 Hjs) as (c2 & Hc2 & Hlen2 & Hget2).
    exists c2. split_and!; [|done|].
    + simpl. rewrite Hc1. done.
    + intros p. rewrite Hget2, Hget1, fmap_cons.
      destruct (elo_change !! p); simpl; [f_equal; lra | done].
Qed.

Lemma range_bounds a b : Forall (λ j, a ≤ j < b)%nat (Py.range a b).
Proof.
  apply Forall_forall. intros j Hj. unfold Py.range in Hj.
  apply elem_of_seq in Hj. lia.
Qed.

(** On a ranking that is a permutation of the player indices [update_elos]
    raises nothing, and each player's change is what the adjacent pairs of
    the ranking hand over. *)
Lemma update_elos_perm current_elos ranking elo_k :
  ranking ≡ₚ Np.arange (length current_elos) →
  ∃ elo_change,
    update_elos current_elos ranking elo_k = Some elo_change
    ∧ length elo_change = length current_elos
    ∧ ∀ p, (p < length current_elos)%nat →
           elo_change !! p = Some (game_gain current_elos ranking elo_k p).
Proof.
  intros Hperm. unfold update_elos.
  destruct (update_elos_loop current_elos ranking elo_k
              (Py.range 1 (length current_elos))
              (replicate (length current_elos) 0))
    as (c & Hc & Hlen & Hget); [done | by rewrite length_replicate | apply range_bounds |].
  exists c. split_and!; [done..|]. intros p Hp.
  rewrite Hget, lookup_replicate_2 by done. simpl. unfold game_gain. f_equal. lra.
Qed.

(** ** The pairwise transfer *)

Lemma pow10_pos x : 0 < Rpower 10 x.
Proof. unfold Rpower. apply exp_pos. Qed.

Lemma pow10_0 : Rpower 10 0 = 1.
Proof. apply Rpower_O. lra. Qed.

Lemma pow10_opp x : Rpower 10 (- x) = / Rpower 10 x.
Proof. apply Rpower_Ropp. Qed.

(** Between equal ratings half of [k] changes hands. *)
Lemma _elo_change_equal r k : _elo_change r r k = k / 2.
Proof.
  unfold _elo_change. replace ((r - r) / 400) with 0 by lra.
  rewrite pow10_0. lra.
Qed.

(** C5 (amended): in exact real arithmetic, for all ratings and every
    [k > 0] the pairwise transfer
    [k / (1 + 10 ^ ((rating_winner - rating_loser) / 400))] lies strictly
    between [0] and [k].  In binary64 both bounds are reached
    ([B64.delta_reaches_k_and_0]). *)
Theorem _elo_change_bounds rating_loser rating_winner k :
  0 < k →
  0 < _elo_change rating_loser rating_winner k < k.
Proof.
  intros Hk. unfold _elo_change.
  pose proof (pow10_pos ((rating_winner - rating_loser) / 400)) as Ht.
  set (t := Rpower 10 _) in *. split.
  - apply Rdiv_lt_0_compat; lra.
  - apply Rmult_lt_reg_r with (1 + t); [lra|].
    unfold Rdiv. rewrite Rmult_assoc, Rinv_l by lra. nra.
Qed.

Lemma _elo_change_bounds_witness :
  0 < 20 ∧ 0 < _elo_change 1500 1510 20 < 20.
Proof. split; [lra | apply (_elo_change_bounds 1500 1510 20); lra]. Defined.

(** C6 (amended): in exact real arithmetic, exchanging the two ratings
    turns the transfer into [k] minus the transfer: the two transfers add up
    to [k].  In binary64 the sum is [k] up to rounding only
    ([B64.swapped_deltas_miss_k]). *)
Theorem _elo_change_swap a b k :
  _elo_change a b k + _elo_change b a k = k.
Proof.
  unfold _elo_change.
  replace ((a - b) / 400) with (- ((b - a) / 400)) by lra.
  rewrite pow10_opp.
  pose proof (pow10_pos ((b - a) / 400)) as Ht.
  set (t := Rpower 10 _) in *.
  assert (0 < / t) by (apply Rinv_0_lt_compat; lra).
  field. split; [nra | lra].
Qed.

(** ** Index arrays that sort *)

#[global] Instance Rle_transitive : Transitive Rle := Rle_trans.
#[global] Instance Rle_antisymm : AntiSymm (=) Rle := Rle_antisym.
#[global] Instance Rle_total : Total Rle.
Proof. intros x y. destruct (Rle_or_lt x y); [by left | right; lra]. Qed.

Section sorts.
Context `{Inhabited A} (le : relation A).

Lemma arange_length n : length (Np.arange n) = n.
Proof. unfold Np.arange. by rewrite length_fmap, length_seq. Qed.

Lemma arange_lookup_lt n i : (i < n)%nat → Np.arange n !! i = Some (Z.of_nat i).
Proof.
  intros Hi. unfold Np.arange. by rewrite list_lookup_fmap, lookup_seq_lt.
Qed.

Lemma arange_NoDup n : NoDup (Np.arange n).
Proof. unfold Np.arange. apply NoDup_fmap; [apply _ | apply NoDup_seq]. Qed.

Lemma arange_elem n x : x ∈ Np.arange n ↔ ∃ i, x = Z.of_nat i ∧ (i < n)%nat.
Proof.
  unfold Np.arange. rewrite list_elem_of_fmap. split.
  - intros (i & -> & Hi). apply elem_of_seq in Hi. exists i. split; [done | lia].
  - intros (i & -> & Hi). exists i. split; [done|]. apply elem_of_seq. lia.
Qed.

Lemma gather_arange (a : list A) : Np.gather a (Np.arange (length a)) = a.
Proof.
  apply list_eq. intros i. unfold Np.gather. rewrite list_lookup_fmap.
  destruct (decide (i < length a)%nat) as [Hi|Hi].
  - rewrite arange_lookup_lt by done. simpl. rewrite Nat2Z.id.
    symmetry. by apply list_lookup_lookup_total_lt.
  - rewrite (lookup_ge_None_2 a) by lia.
    rewrite (lookup_ge_None_2 (Np.arange _)); [done|]. rewrite arange_length. lia.
Qed.

Lemma gather_perm (a : list A) p :
  p ≡ₚ Np.arange (length a) → Np.gather a p ≡ₚ a.
Proof.
  intros Hp. rewrite <- (gather_arange a) at 2. unfold Np.gather. by rewrite Hp.
Qed.

Lemma gather_length (a : list A) p : length (Np.gather a p) = length p.
Proof. unfold Np.gather. apply length_fmap. Qed.

Lemma merge_argsort_sorts `{!RelDecision le, !Total le} (a : list A) :
  Np.sorts le a (merge_argsort le a).
Proof.
  split.
  - apply merge_sort_Permutation.
  - unfold Np.gather, merge_argsort.
    assert (Total (le_at le a)) by (intros x y; apply (total le)).
    eapply Sorted_fmap; [|apply (Sorted_merge_sort (le_at le a))].
    intros x y Hxy. exact Hxy.
Qed.

(** An array without repeated elements is sorted by one index array only. *)
Lemma sorts_unique `{!Transitive le, !AntiSymm (=) le} (a : list A) p q :
  NoDup a → Np.sorts le a p → Np.sorts le a q → p = q.
Proof.
  intros Hnd [Hp Hsp] [Hq Hsq].
  assert (Np.gather a p = Np.gather a q) as Heq.
  { apply (Sorted_unique le); [done..|]. by rewrite !gather_perm. }
  apply list_eq. intros i.
  assert (Np.gather a p !! i = Np.gather a q !! i) as Hi by (by rewrite Heq).
  unfold Np.gather in Hi. rewrite !list_lookup_fmap in Hi.
  destruct (p !! i) as [x|] eqn:Hx, (q !! i) as [y|] eqn:Hy; simplify_eq/=; [|done].
  apply list_elem_of_lookup_2 in Hx, Hy. rewrite Hp in Hx. rewrite Hq in Hy.
  apply arange_elem in Hx as (x' & -> & Hx'), Hy as (y' & -> & Hy').
  rewrite !Nat2Z.id in Hi.
  destruct (lookup_lt_is_Some_2 a x' Hx') as [v Hv].
  pose proof (list_lookup_lookup_total_lt a y' Hy') as Hv'.
  rewrite <- Hi, (list_lookup_total_correct _ _ _ Hv) in Hv'.
  f_equal. f_equal. eapply NoDup_lookup; eauto.
Qed.

End sorts.

Definition merge_argsort_R : Np.Argsort R Rle :=
  {| Np.argsort := merge_argsort Rle; Np.argsort_sorts := merge_argsort_sorts Rle |}.

Definition merge_argsort_Z : Np.Argsort Z Z.le :=
  {| Np.argsort := merge_argsort Z.le; Np.argsort_sorts := merge_argsort_sorts Z.le |}.

(** ** The loop of [main] *)

Lemma k_after_ge_1 n : 1 <= k_after n.
Proof.
  destruct n as [|n]; simpl.
  - unfold k_after. simpl. lra.
  - unfold k_after. simpl. apply Rmax_r.
Qed.

Lemma k_after_S_le n : k_after (S n) <= k_after n.
Proof.
  pose proof (k_after_ge_1 n) as Hge. unfold k_after in *. simpl.
  apply Rmax_lub; lra.
Qed.

Lemma k_after_mono n m : (n ≤ m)%nat → k_after m <= k_after n.
Proof.
  induction 1 as [|m Hle IH]; [lra|].
  pose proof (k_after_S_le m). lra.
Qed.

Lemma k_after_stays_1 n m : (n ≤ m)%nat → k_after n = 1 → k_after m = 1.
Proof.
  intros Hle H1. pose proof (k_after_mono n m Hle). pose proof (k_after_ge_1 m). lra.
Qed.

Lemma k_after_closed_form n : k_after n = Rmax (0.99 ^ n * 20) 1.
Proof.
  induction n as [|n IH].
  - unfold k_after. simpl. unfold Rmax. destruct (Rle_dec _ _); lra.
  - change (k_after (S n)) with (Rmax (0.99 * k_after n) 1). rewrite IH.
    simpl. unfold Rmax. repeat destruct (Rle_dec _ _); lra.
Qed.

Lemma pow_099_299 : 0.99 ^ 299 * 20 < 1.
Proof.
  assert (0 < IZR (100 ^ 299)) as Hpos by (apply IZR_lt; reflexivity).
  assert (IZR (99 ^ 299) * 20 < IZR (100 ^ 299)) as Hlt.
  { rewrite <- mult_IZR. apply IZR_lt. reflexivity. }
  replace 0.99 with (99 * / 100) by lra.
  rewrite Rpow_mult_distr, pow_inv.
  rewrite !pow_IZR. change (Z.of_nat 299) with 299%Z.
  apply Rmult_lt_reg_r with (IZR (100 ^ 299)); [done|].
  rewrite Rmult_1_l.
  rewrite (Rmult_comm _ 20), <- Rmult_assoc, Rmult_assoc, Rinv_l by lra.
  lra.
Qed.

(** The floor is reached with the 299th game. *)
Lemma k_after_floor n : (299 ≤ n)%nat → k_after n = 1.
Proof.
  intros Hn. apply (k_after_stays_1 299 n Hn).
  rewrite k_after_closed_form. apply Rmax_right.
  pose proof pow_099_299. lra.
Qed.

Lemma seed_length P : length (seed P) = P.
Proof. unfold seed. by rewrite length_fmap, arange_length. Qed.

Lemma seed_lookup P i : (i < P)%nat → seed P !! i = Some (1500 + INR i).
Proof.
  intros Hi. unfold seed. rewrite list_lookup_fmap, arange_lookup_lt by done.
  simpl. by rewrite <- INR_IZR_INZ.
Qed.

Lemma enumerate_length {A} (l : list A) : length (Py.enumerate l) = length l.
Proof.
  unfold Py.enumerate. rewrite length_zip_with, length_seq. lia.
Qed.

Lemma enumerate_lookup {A} (l : list A) n x :
  l !! n = Some x → Py.enumerate l !! n = Some (n, x).
Proof.
  intros Hx. unfold Py.enumerate. rewrite lookup_zip_with.
  rewrite lookup_seq_lt by (by eapply lookup_lt_Some). simpl. by rewrite Hx.
Qed.

Section main_loop.
Context `{!Np.Argsort R Rle} `{!Np.Argsort Z Z.le}.

Lemma elo_init_inv P G :
  ∃ st, elo_init G P = Some st ∧ elo_inv P G 0 st.
Proof.
  unfold elo_init.
  rewrite (setitem_of_nat _ 0%nat) by (rewrite length_replicate; lia). simpl.
  eexists. split; [done|]. unfold elo_inv. simpl.
  split_and!.
  - by rewrite length_insert, length_replicate.
  - apply Forall_insert; [|apply seed_length].
    apply Forall_replicate. apply length_replicate.
  - apply list_lookup_insert_eq. rewrite length_replicate. lia.
  - intros i Hi. replace i with 0%nat by lia. eexists. split; [|done].
    apply list_lookup_insert_eq. rewrite length_replicate. lia.
  - done.
Qed.

Lemma elo_game_inv P G n st s :
  elo_inv P G n st → (n < G)%nat → length s = P →
  ∃ st', elo_game st (n, s) = Some st'
         ∧ elo_inv P G (S n) st'
         ∧ k st' = Rmax (0.99 * k st) 1.
Proof.
  intros (Hlen & Hrows & Hrow0 & Hsums & Hk) Hn Hs.
  destruct (Hsums n) as (current & Hcur & Hsum); [lia|].
  assert (length current = P) as HcurP.
  { eapply (Forall_lookup_1 _ _ _ _ Hrows Hcur). }
  destruct (update_elos_perm current (Np.argsort s) (k st))
    as (change & Hchange & HchangeP & _).
  { rewrite HcurP, <- Hs. apply Np.argsort_sorts. }
  pose proof (update_elos_sum _ _ _ _ Hchange) as [_ Hzero].
  unfold elo_game. rewrite getitem_of_nat, Hcur. simpl. rewrite Hchange. simpl.
  replace (Z.of_nat n + 1)%Z with (Z.of_nat (S n)) by lia.
  rewrite setitem_of_nat by lia. simpl.
  eexists. split; [done|]. split; [|done]. unfold elo_inv. simpl. split_and!.
  - by rewrite length_insert.
  - apply Forall_insert; [done|]. rewrite length_zip_with. lia.
  - by rewrite list_lookup_insert_ne.
  - intros i Hi. destruct (decide (i = S n)) as [->|Hne].
    + eexists. split; [apply list_lookup_insert_eq; lia|].
      rewrite sum_R_zip_with_plus by lia. lra.
    + rewrite list_lookup_insert_ne by done. apply Hsums. lia.
  - rewrite Hk. done.
Qed.

Lemma elo_after_S n P scores s :
  scores !! n = Some s →
  elo_after (S n) P scores = st ← elo_after n P scores; elo_game st (n, s).
Proof.
  intros Hs. unfold elo_after.
  rewrite (take_S_r _ _ _ (enumerate_lookup _ _ _ Hs)).
  destruct (elo_init (length scores) P) as [st0|]; [|done].
  cbn [mbind option_bind]. by rewrite for_each_snoc.
Qed.

Lemma elo_after_inv n P scores :
  rectangular P scores → (n ≤ length scores)%nat →
  ∃ st, elo_after n P scores = Some st ∧ elo_inv P (length scores) n st.
Proof.
  intros Hrect. induction n as [|n IH]; intros Hn.
  - destruct (elo_init_inv P (length scores)) as (st0 & Hinit & Hinv).
    exists st0. split; [|done]. unfold elo_after. rewrite Hinit. done.
  - destruct IH as (st & Hst & Hinv); [lia|].
    destruct (lookup_lt_is_Some_2 scores n) as [s Hs]; [lia|].
    destruct (elo_game_inv P (length scores) n st s Hinv) as (st' & Hst' & Hinv' & _).
    { lia. } { eapply (Forall_lookup_1 _ _ _ _ Hrect Hs). }
    exists st'. split; [|done]. rewrite (elo_after_S _ _ _ _ Hs), Hst. done.
Qed.

Lemma running_elos_after P scores :
  running_elos P scores = elo_after (length scores) P scores.
Proof.
  unfold running_elos, elo_after.
  rewrite take_ge; [done|]. by rewrite enumerate_length.
Qed.

End main_loop.

(** ** Worked games *)

Arguments _elo_change : simpl never.
Arguments update_elos : simpl never.

Ltac eval_gain :=
  unfold game_gain, pair_gain, pair_delta; simpl; repeat case_decide; try lia;
  rewrite ?_elo_change_equal; lra.

(** Subscripts behave as in Python: a ranking that is too short or names a
    player that does not exist raises, and negative entries count from the
    end. *)
Example short_ranking_raises : update_elos [1500; 1500] [0]%Z 20 = None.
Proof. reflexivity. Qed.

Example index_out_of_range_raises :
  update_elos [1500; 1500] [0; 2]%Z 20 = None.
Proof. reflexivity. Qed.

Example negative_indices_count_from_the_end :
  update_elos [1500; 1500] [-2; -1]%Z 20 = Some [-10; 10].
Proof.
  unfold update_elos. simpl. rewrite !_elo_change_equal.
  repeat (f_equal; try lra).
Qed.


Lemma update_elos_three_equal :
  update_elos [1500; 1500; 1500] [1; 0; 2]%Z 20 = Some [0; -10; 10].
Proof.
  destruct (update_elos_perm [1500; 1500; 1500] [1; 0; 2]%Z 20)
    as (ch & -> & Hlen & Hget).
  { apply perm_swap. }
  destruct ch as [|c0 [|c1 [|c2 [|]]]]; try discriminate.
  pose proof (Hget 0%nat ltac:(simpl; lia)) as [= ->].
  pose proof (Hget 1%nat ltac:(simpl; lia)) as [= ->].
  pose proof (Hget 2%nat ltac:(simpl; lia)) as [= ->].
  do 2 f_equal; [|f_equal; [|f_equal]]; eval_gain.
Qed.

(** ** Dense ranks *)

Lemma StronglySorted_lookup_le {A} (rel : relation A) `{!Reflexive rel} l i j x y :
  StronglySorted rel l → (i ≤ j)%nat → l !! i = Some x → l !! j = Some y → rel x y.
Proof.
  intros Hl. revert i j. induction Hl as [|z l Hl IH Hz]; intros i j Hij Hi Hj.
  - done.
  - destruct i as [|i], j as [|j]; simplify_eq/=; try lia.
    + reflexivity.
    + eapply Forall_lookup_1; eauto.
    + eapply (IH i j); [lia | done..].
Qed.

Lemma arange_sorted n : Sorted Z.le (Np.arange n).
Proof.
  unfold Np.arange. apply (Sorted_fmap _ le); [intros x y; lia|].
  generalize 0%nat. induction n as [|n IH]; intros m; simpl; constructor.
  - apply IH.
  - destruct n; simpl; constructor. lia.
Qed.

(** Sorting a permutation of [0 .. n-1] inverts it. *)
Lemma argsort_inverse (p q : list Z) n :
  p ≡ₚ Np.arange n → Np.sorts Z.le p q → Np.gather p q = Np.arange n.
Proof.
  intros Hp [Hq Hs]. apply (Sorted_unique Z.le); [done | apply arange_sorted |].
  by rewrite gather_perm.
Qed.

Section dense_ranks.
Context `{!Np.Argsort R Rle} `{!Np.Argsort Z Z.le}.

Lemma argsort_perm (s : list R) : Np.argsort s ≡ₚ Np.arange (length s).
Proof. apply Np.argsort_sorts. Qed.

Lemma argsort_length (s : list R) : length (Np.argsort s) = length s.
Proof. by rewrite argsort_perm, arange_length. Qed.

Lemma ranks_row_length P (s : list R) : length (ranks_row P s) = length s.
Proof.
  unfold ranks_row. rewrite length_fmap.
  destruct (Np.argsort_sorts (Np.argsort s)) as [Hq _].
  apply Permutation_length in Hq.
  by rewrite Hq, arange_length, argsort_length.
Qed.

(** The rank of player [a] is [P] minus the position of [a] in the sorted
    order of the row. *)
Lemma ranks_row_position P (s : list R) a r :
  ranks_row P s !! a = Some r →
  ∃ i, (i < length s)%nat ∧ r = (Z.of_nat P - Z.of_nat i)%Z
       ∧ Np.argsort s !! i = Some (Z.of_nat a).
Proof.
  unfold ranks_row. rewrite list_lookup_fmap. intros Hr.
  apply fmap_Some in Hr as (qa & Hqa & ->).
  pose proof (Np.argsort_sorts (Np.argsort s)) as Hsorts.
  pose proof (argsort_inverse _ _ _ (argsort_perm s) Hsorts) as Hinv.
  destruct Hsorts as [Hq _]. rewrite argsort_length in Hq.
  assert (a < length s)%nat as Ha.
  { apply lookup_lt_Some in Hqa. by rewrite Hq, arange_length in Hqa. }
  apply list_elem_of_lookup_2 in Hqa as Hin. rewrite Hq in Hin.
  apply arange_elem in Hin as (i & -> & Hi).
  exists i. split_and!; [done..|].
  assert (Np.gather (Np.argsort s) (Np.argsort (Np.argsort s)) !! a
          = Some (Z.of_nat a)) as Hga.
  { rewrite Hinv. by apply arange_lookup_lt. }
  unfold Np.gather in Hga. rewrite list_lookup_fmap, Hqa in Hga.
  simpl in Hga. rewrite Nat2Z.id in Hga. injection Hga as Hga.
  rewrite <- Hga. apply list_lookup_lookup_total_lt. by rewrite argsort_length.
Qed.

(** Along the sorted order the scores do not decrease. *)
Lemma argsort_scores_le (s : list R) i j a b x y :
  (i ≤ j)%nat →
  Np.argsort s !! i = Some (Z.of_nat a) → Np.argsort s !! j = Some (Z.of_nat b) →
  s !! a = Some x → s !! b = Some y → x <= y.
Proof.
  intros Hij Hi Hj Hx Hy.
  destruct (Np.argsort_sorts s) as [_ Hs].
  apply Sorted_StronglySorted in Hs; [|apply _].
  eapply (StronglySorted_lookup_le Rle _ i j); [done..| |].
  - unfold Np.gather. rewrite list_lookup_fmap, Hi. simpl.
    by rewrite Nat2Z.id, (list_lookup_total_correct _ _ _ Hx).
  - unfold Np.gather. rewrite list_lookup_fmap, Hj. simpl.
    by rewrite Nat2Z.id, (list_lookup_total_correct _ _ _ Hy).
Qed.

End dense_ranks.

(** * The claims *)

(** ** C1 *)

(** [NoDup] of a list given in full, with [tac] to tell its elements apart. *)
Ltac nodup_by tac :=
  repeat (apply NoDup_cons; split); [..|apply NoDup_nil_2];
  intros ?;
  repeat match goal with
  | H : _ ∈ _ :: _ |- _ => apply elem_of_cons in H as [H|H]
  | H : _ ∈ [] |- _ => by apply elem_of_nil in H
  end; tac.

Lemma scores_10_5_20_NoDup : NoDup [10; 5; 20].
Proof. nodup_by lra. Qed.

Lemma argsort_10_5_20 `{!Np.Argsort R Rle} :
  Np.argsort [10; 5; 20] = [1; 0; 2]%Z.
Proof.
  apply (sorts_unique Rle [10; 5; 20]).
  - apply scores_10_5_20_NoDup.
  - apply Np.argsort_sorts.
  - split; [apply perm_swap|]. unfold Np.gather. simpl.
    repeat constructor; lra.
Qed.

(** C1, as stated, fails: on the ordering [[1; 0; 2]] with all ratings at
    1500 and [k = 20] the change vector is [[0; -10; 10]], not
    [[0; 10; -10]], and the next ratings are not [[1500; 1510; 1490]]. *)
Lemma game_10_5_20_not_as_stated :
  update_elos [1500; 1500; 1500] [1; 0; 2]%Z 20 = Some [0; -10; 10]
  ∧ Some [0; -10; 10] ≠ Some [0; 10; -10]
  ∧ zip_with Rplus [1500; 1500; 1500] [0; -10; 10] ≠ [1500; 1510; 1490].
Proof.
  split_and!.
  - apply update_elos_three_equal.
  - intros [= H]. lra.
  - simpl. intros [= _ H _]. lra.
Qed.

(** C1 (amended): for the game with scores [[10; 5; 20]] the ordering is
    [[1; 0; 2]]; with all ratings at 1500 and [k = 20] the change vector is
    [[0; -10; 10]] and the next rating vector is [[1500; 1490; 1510]]: the
    player with the highest score gains 10, the one with the lowest score
    loses 10.  The loop then lowers [k] to 19.8. *)
Theorem game_10_5_20 `{!Np.Argsort R Rle} :
  Np.argsort [10; 5; 20] = [1; 0; 2]%Z
  ∧ update_elos [1500; 1500; 1500] (Np.argsort [10; 5; 20]) 20
    = Some [0; -10; 10]
  ∧ elo_game (LoopState [[1500; 1500; 1500]; [0; 0; 0]] 20) (0%nat, [10; 5; 20])
    = Some (LoopState [[1500; 1500; 1500]; [1500; 1490; 1510]] 19.8).
Proof.
  split_and!.
  - apply argsort_10_5_20.
  - rewrite argsort_10_5_20. apply update_elos_three_equal.
  - unfold elo_game. rewrite argsort_10_5_20, getitem_of_nat. simpl.
    rewrite !_elo_change_equal.
    assert (Rmax (0.99 * 20) 1 = 19.8) as ->
      by (unfold Rmax; destruct (Rle_dec _ _); lra).
    repeat (f_equal; try lra).
Qed.

Lemma game_10_5_20_witness :
  @Np.argsort _ _ _ merge_argsort_R [10; 5; 20] = [1; 0; 2]%Z
  ∧ update_elos [1500; 1500; 1500] (@Np.argsort _ _ _ merge_argsort_R [10; 5; 20]) 20
    = Some [0; -10; 10]
  ∧ @elo_game merge_argsort_R
      (LoopState [[1500; 1500; 1500]; [0; 0; 0]] 20) (0%nat, [10; 5; 20])
    = Some (LoopState [[1500; 1500; 1500]; [1500; 1490; 1510]] 19.8).
Proof. apply (@game_10_5_20 merge_argsort_R). Defined.

(** ** C2 *)


(** Sums over positions. *)
Lemma sum_R_ext {A} (f g : A → R) l :
  (∀ x, x ∈ l → f x = g x) → sum_R (f <$> l) = sum_R (g <$> l).
Proof.
  induction l as [|x l IH]; intros Hfg; [done|].
  rewrite !fmap_cons. simpl. rewrite (Hfg x), IH; [done| |by constructor].
  intros y Hy. apply Hfg. by constructor.
Qed.

Lemma sum_R_minus {A} (f g : A → R) l :
  sum_R ((λ x, f x - g x) <$> l) = sum_R (f <$> l) - sum_R (g <$> l).
Proof.
  induction l as [|x l IH]; [simpl; lra|].
  rewrite !fmap_cons. simpl. rewrite IH. lra.
Qed.

Lemma sum_R_only (f : nat → R) i a n :
  sum_R ((λ j, if decide (j = i) then f j else 0) <$> seq a n)
  = if decide (a ≤ i < a + n)%nat then f i else 0.
Proof.
  revert a. induction n as [|n IH]; intros a.
  - simpl. case_decide; [lia | done].
  - change (seq a (S n)) with (a :: seq (S a) n). rewrite fmap_cons. simpl.
    rewrite IH. repeat case_decide; subst; try lia; lra.
Qed.

(** In a ranking without repetitions the player in position [i] takes part
    in the pair that ends at [i] and in the pair that starts at [i]. *)
Lemma game_gain_position current_elos ranking elo_k i p :
  ranking ≡ₚ Np.arange (length current_elos) →
  ranking !! i = Some (Z.of_nat p) →
  game_gain current_elos ranking elo_k p
  = (if decide (1 ≤ i)%nat then pair_delta current_elos ranking elo_k i else 0)
    - (if decide (S i < length current_elos)%nat
       then pair_delta current_elos ranking elo_k (S i) else 0).
Proof.
  intros Hperm Hi.
  assert (length ranking = length current_elos) as Hlen
    by (by rewrite Hperm, arange_length).
  assert (NoDup ranking) as Hnd by (rewrite Hperm; apply arange_NoDup).
  assert (∀ j, (j < length ranking)%nat →
               ranking !!! j = Z.of_nat p ↔ j = i) as Hpos.
  { intros j Hj. split.
    - intros Hjp. apply list_lookup_lookup_total_lt in Hj. rewrite Hjp in Hj.
      by eapply NoDup_lookup.
    - intros ->. by apply list_lookup_total_correct. }
  unfold game_gain.
  rewrite (sum_R_ext _
    (λ j, (if decide (j = i) then pair_delta current_elos ranking elo_k j else 0)
          - (if decide (j = S i)
             then pair_delta current_elos ranking elo_k j else 0))).
  - rewrite sum_R_minus. unfold Py.range. rewrite !sum_R_only.
    apply lookup_lt_Some in Hi. repeat case_decide; try lia; done.
  - intros j Hj. unfold Py.range in Hj. apply elem_of_seq in Hj.
    unfold pair_gain.
    pose proof (Hpos j ltac:(lia)) as H1.
    pose proof (Hpos (j - 1)%nat ltac:(lia)) as H2.
    repeat case_decide; try done; exfalso; try (intuition lia).
Qed.



(** ** C3 *)

(** C3: for every rating vector, every ranking that is a permutation of the
    player indices and every [k], [update_elos] returns a change vector with
    one entry per player whose sum is exactly zero; with a single player the
    change vector is [[0]]. *)
Theorem update_elos_zero_sum current_elos ranking elo_k :
  ranking ≡ₚ Np.arange (length current_elos) →
  ∃ elo_change,
    update_elos current_elos ranking elo_k = Some elo_change
    ∧ length elo_change = length current_elos
    ∧ sum_R elo_change = 0
    ∧ (length current_elos = 1%nat → elo_change = [0]).
Proof.
  intros Hperm.
  destruct (update_elos_perm current_elos ranking elo_k Hperm)
    as (ch & Hch & Hlen & _).
  exists ch. split_and!; [done..| |].
  - by apply update_elos_sum in Hch as [_ ?].
  - intros H1. destruct current_elos as [|x [|]]; simplify_eq/=.
    unfold update_elos in Hch. by simplify_eq/=.
Qed.

Lemma update_elos_zero_sum_witness :
  ∃ elo_change,
    update_elos [1500; 1510; 1490] [2; 0; 1]%Z 20 = Some elo_change
    ∧ length elo_change = 3%nat
    ∧ sum_R elo_change = 0
    ∧ (3%nat = 1%nat → elo_change = [0]).
Proof.
  apply (update_elos_zero_sum [1500; 1510; 1490] [2; 0; 1]%Z 20).
  apply (Permutation_cons_append [0; 1]%Z 2%Z).
Defined.

(** ** C4 *)

Lemma argsort_1_0_2 `{!Np.Argsort Z Z.le} :
  Np.argsort [1; 0; 2]%Z = [1; 0; 2]%Z.
Proof.
  apply (sorts_unique Z.le [1; 0; 2]%Z).
  - nodup_by lia.
  - apply Np.argsort_sorts.
  - split; [apply perm_swap|]. unfold Np.gather. simpl.
    repeat constructor; lia.
Qed.

(** C4, as stated, fails: in the row [[10; 5; 20]] player 1 has the smallest
    score and receives rank 3, not rank 1, whatever [argsort] does with
    ties. *)
Lemma smallest_score_ranked_last :
  (∀ (sort_R : Np.Argsort R Rle) (sort_Z : Np.Argsort Z Z.le),
     ranks_row 3 [10; 5; 20] = [2; 3; 1]%Z)
  ∧ [2; 3; 1]%Z !! 1%nat ≠ Some 1%Z.
Proof.
  split; [|done]. intros sort_R sort_Z.
  unfold ranks_row. by rewrite argsort_10_5_20, argsort_1_0_2.
Qed.

(** C4 (amended): in a row of [P] scores every rank lies in [1, P]; a
    higher score has a better (lower-numbered) rank than a lower score; the
    player whose score is the largest of the row receives rank 1, and the
    player whose score is the smallest of the row receives rank [P]. *)
Theorem ranks_row_higher_score_better
    `{!Np.Argsort R Rle} `{!Np.Argsort Z Z.le} (num_players : nat) (s : list R) :
  length s = num_players →
  length (ranks_row num_players s) = num_players
  ∧ (∀ a r, ranks_row num_players s !! a = Some r →
       (1 ≤ r ≤ Z.of_nat num_players)%Z)
  ∧ (∀ a b ra rb x y,
       ranks_row num_players s !! a = Some ra →
       ranks_row num_players s !! b = Some rb →
       s !! a = Some x → s !! b = Some y → x < y → (rb < ra)%Z)
  ∧ (∀ a x, s !! a = Some x →
       (∀ b y, b ≠ a → s !! b = Some y → y < x) →
       ranks_row num_players s !! a = Some 1%Z)
  ∧ (∀ a x, s !! a = Some x →
       (∀ b y, b ≠ a → s !! b = Some y → x < y) →
       ranks_row num_players s !! a = Some (Z.of_nat num_players)).
Proof.
  intros HP. split_and!.
  - by rewrite ranks_row_length.
  - intros a r Hr.
    apply ranks_row_position in Hr as (i & Hi & -> & _). lia.
  - intros a b ra rb x y Hra Hrb Hx Hy Hxy.
    apply ranks_row_position in Hra as (i & Hi & -> & Hpi).
    apply ranks_row_position in Hrb as (j & Hj & -> & Hpj).
    destruct (decide (i < j)%nat) as [Hij|Hij]; [lia|].
    pose proof (argsort_scores_le s j i b a y x ltac:(lia) Hpj Hpi Hy Hx). lra.
  - intros a x Hx Hmax.
    assert (a < length s)%nat as Ha by (by eapply lookup_lt_Some).
    destruct (lookup_lt_is_Some_2 (ranks_row num_players s) a) as [r Hr].
    { by rewrite ranks_row_length. }
    rewrite Hr. apply ranks_row_position in Hr as (i & Hi & -> & Hpi).
    destruct (arange_lookup (Np.argsort s) (length s) (length s - 1))
      as (b & Hb & Hpb); [apply argsort_perm | lia |].
    destruct (lookup_lt_is_Some_2 s b Hb) as [y Hy].
    assert (b = a) as ->.
    { destruct (decide (b = a)) as [|Hne]; [done|].
      pose proof (Hmax b y Hne Hy).
      pose proof (argsort_scores_le s i (length s - 1) a b x y
                    ltac:(lia) Hpi Hpb Hx Hy). lra. }
    assert (i = (length s - 1)%nat) as ->.
    { eapply NoDup_lookup; [|exact Hpi|exact Hpb].
      rewrite argsort_perm. apply arange_NoDup. }
    f_equal. lia.
  - intros a x Hx Hmin.
    assert (a < length s)%nat as Ha by (by eapply lookup_lt_Some).
    destruct (lookup_lt_is_Some_2 (ranks_row num_players s) a) as [r Hr].
    { by rewrite ranks_row_length. }
    rewrite Hr. apply ranks_row_position in Hr as (i & Hi & -> & Hpi).
    destruct (arange_lookup (Np.argsort s) (length s) 0)
      as (b & Hb & Hpb); [apply argsort_perm | lia |].
    destruct (lookup_lt_is_Some_2 s b Hb) as [y Hy].
    assert (b = a) as ->.
    { destruct (decide (b = a)) as [|Hne]; [done|].
      pose proof (Hmin b y Hne Hy).
      pose proof (argsort_scores_le s 0 i b a y x
                    ltac:(lia) Hpb Hpi Hy Hx). lra. }
    assert (i = 0%nat) as ->.
    { eapply NoDup_lookup; [|exact Hpi|exact Hpb].
      rewrite argsort_perm. apply arange_NoDup. }
    f_equal. lia.
Qed.

Lemma ranks_row_higher_score_better_witness :
  length (@ranks_row merge_argsort_R merge_argsort_Z 3 [10; 5; 20]) = 3%nat
  ∧ (∀ a r, @ranks_row merge_argsort_R merge_argsort_Z 3 [10; 5; 20] !! a = Some r →
       (1 ≤ r ≤ Z.of_nat 3)%Z)
  ∧ (∀ a b ra rb x y,
       @ranks_row merge_argsort_R merge_argsort_Z 3 [10; 5; 20] !! a = Some ra →
       @ranks_row merge_argsort_R merge_argsort_Z 3 [10; 5; 20] !! b = Some rb →
       [10; 5; 20] !! a = Some x → [10; 5; 20] !! b = Some y → x < y → (rb < ra)%Z)
  ∧ (∀ a x, [10; 5; 20] !! a = Some x →
       (∀ b y, b ≠ a → [10; 5; 20] !! b = Some y → y < x) →
       @ranks_row merge_argsort_R merge_argsort_Z 3 [10; 5; 20] !! a = Some 1%Z)
  ∧ (∀ a x, [10; 5; 20] !! a = Some x →
       (∀ b y, b ≠ a → [10; 5; 20] !! b = Some y → x < y) →
       @ranks_row merge_argsort_R merge_argsort_Z 3 [10; 5; 20] !! a
       = Some (Z.of_nat 3)).
Proof.
  apply (@ranks_row_higher_score_better merge_argsort_R merge_argsort_Z 3 [10; 5; 20]).
  reflexivity.
Defined.

(** ** C7, C8 and C10: the whole pass *)

Lemma rectangular_one_game : rectangular 3 [[10; 5; 20]].
Proof. by repeat constructor. Qed.

Section pass.
Context `{!Np.Argsort R Rle} `{!Np.Argsort Z Z.le}.

(** C7: on a rectangular score table of [G] games the pass raises nothing
    and leaves a history of exactly [G + 1] rating vectors, one entry per
    player each, whose row 0 is the seed: entry [1500 + i] at player
    index [i]. *)
Theorem running_elos_history (num_players : nat) (scores : list (list R)) :
  rectangular num_players scores →
  ∃ st, running_elos num_players scores = Some st
        ∧ length (elos st) = (length scores + 1)%nat
        ∧ Forall (λ row, length row = num_players) (elos st)
        ∧ elos st !! 0%nat = Some (seed num_players)
        ∧ ∀ i, (i < num_players)%nat → seed num_players !! i = Some (1500 + INR i).
Proof.
  intros Hrect.
  destruct (elo_after_inv (length scores) num_players scores Hrect)
    as (st & Hst & Hlen & Hrows & Hrow0 & _); [lia|].
  exists st. rewrite running_elos_after. split_and!; [done..|].
  apply seed_lookup.
Qed.

(** C8: the learning rate is 20 when the loop starts and becomes
    [max(0.99 * k, 1)] after each game; so between any two points of the
    pass it does not increase, it never drops below 1, and once it is 1 it
    stays 1.  It is 1 from the 299th game on. *)
Theorem learning_rate_schedule (num_players : nat) (scores : list (list R)) :
  rectangular num_players scores →
  (∃ st, elo_after 0 num_players scores = Some st ∧ k st = 20)
  ∧ (∀ n, (n < length scores)%nat →
       ∃ st st', elo_after n num_players scores = Some st
                 ∧ elo_after (S n) num_players scores = Some st'
                 ∧ k st' = Rmax (0.99 * k st) 1)
  ∧ (∀ n m, (n ≤ m ≤ length scores)%nat →
       ∃ st st', elo_after n num_players scores = Some st
                 ∧ elo_after m num_players scores = Some st'
                 ∧ 1 <= k st' <= k st
                 ∧ (k st = 1 → k st' = 1))
  ∧ (∀ n, (299 ≤ n ≤ length scores)%nat →
       ∃ st, elo_after n num_players scores = Some st ∧ k st = 1).
Proof.
  intros Hrect. split_and!.
  - destruct (elo_after_inv 0 num_players scores Hrect)
      as (st & Hst & _ & _ & _ & _ & Hk); [lia|].
    exists st. split; [done|]. by rewrite Hk.
  - intros n Hn.
    destruct (elo_after_inv n num_players scores Hrect)
      as (st & Hst & _ & _ & _ & _ & Hk); [lia|].
    destruct (elo_after_inv (S n) num_players scores Hrect)
      as (st' & Hst' & _ & _ & _ & _ & Hk'); [lia|].
    exists st, st'. split_and!; [done..|]. by rewrite Hk, Hk'.
  - intros n m Hnm.
    destruct (elo_after_inv n num_players scores Hrect)
      as (st & Hst & _ & _ & _ & _ & Hk); [lia|].
    destruct (elo_after_inv m num_players scores Hrect)
      as (st' & Hst' & _ & _ & _ & _ & Hk'); [lia|].
    exists st, st'. rewrite Hk, Hk'. split_and!; [done..| | |].
    + apply k_after_ge_1.
    + apply k_after_mono. lia.
    + apply k_after_stays_1. lia.
  - intros n Hn.
    destruct (elo_after_inv n num_players scores Hrect)
      as (st & Hst & _ & _ & _ & _ & Hk); [lia|].
    exists st. split; [done|]. rewrite Hk. apply k_after_floor. lia.
Qed.

(** C10 (amended): in exact real arithmetic, on a rectangular score table
    every row of the rating history, from row 0 to row [G], has the same sum
    as the seed row 0.  In binary64 the stored rows drift by rounding
    ([B64.rows_drift]). *)
Theorem running_elos_conserves (num_players : nat) (scores : list (list R)) :
  rectangular num_players scores →
  ∃ st, running_elos num_players scores = Some st
        ∧ elos st !! 0%nat = Some (seed num_players)
        ∧ ∀ i, (i ≤ length scores)%nat →
               ∃ row, elos st !! i = Some row
                      ∧ sum_R row = sum_R (seed num_players).
Proof.
  intros Hrect.
  destruct (elo_after_inv (length scores) num_players scores Hrect)
    as (st & Hst & _ & _ & Hrow0 & Hsums & _); [lia|].
  exists st. rewrite running_elos_after. done.
Qed.

End pass.

Lemma running_elos_history_witness :
  ∃ st, @running_elos merge_argsort_R 3 [[10; 5; 20]] = Some st
        ∧ length (elos st) = (1 + 1)%nat
        ∧ Forall (λ row, length row = 3%nat) (elos st)
        ∧ elos st !! 0%nat = Some (seed 3)
        ∧ ∀ i, (i < 3)%nat → seed 3 !! i = Some (1500 + INR i).
Proof.
  apply (@running_elos_history merge_argsort_R 3 [[10; 5; 20]]).
  apply rectangular_one_game.
Defined.

Lemma learning_rate_schedule_witness :
  (∃ st, @elo_after merge_argsort_R 0 3 [[10; 5; 20]] = Some st ∧ k st = 20)
  ∧ (∀ n, (n < 1)%nat →
       ∃ st st', @elo_after merge_argsort_R n 3 [[10; 5; 20]] = Some st
                 ∧ @elo_after merge_argsort_R (S n) 3 [[10; 5; 20]] = Some st'
                 ∧ k st' = Rmax (0.99 * k st) 1)
  ∧ (∀ n m, (n ≤ m ≤ 1)%nat →
       ∃ st st', @elo_after merge_argsort_R n 3 [[10; 5; 20]] = Some st
                 ∧ @elo_after merge_argsort_R m 3 [[10; 5; 20]] = Some st'
                 ∧ 1 <= k st' <= k st
                 ∧ (k st = 1 → k st' = 1))
  ∧ (∀ n, (299 ≤ n ≤ 1)%nat →
       ∃ st, @elo_after merge_argsort_R n 3 [[10; 5; 20]] = Some st ∧ k st = 1).
Proof.
  apply (@learning_rate_schedule merge_argsort_R 3 [[10; 5; 20]]).
  apply rectangular_one_game.
Defined.

Lemma running_elos_conserves_witness :
  ∃ st, @running_elos merge_argsort_R 3 [[10; 5; 20]] = Some st
        ∧ elos st !! 0%nat = Some (seed 3)
        ∧ ∀ i, (i ≤ 1)%nat →
               ∃ row, elos st !! i = Some row ∧ sum_R row = sum_R (seed 3).
Proof.
  apply (@running_elos_conserves merge_argsort_R 3 [[10; 5; 20]]).
  apply rectangular_one_game.
Defined.

(** ** C9: equal scores

    The ordering of a game is [s.argsort()] with numpy's default [kind],
    whose order on equal elements is numpy's business and not fixed by the
    contract above.  The two index arrays below both sort the row [[1; 1]],
    so the contract alone does not make the ordering of a tied row the
    identity. *)

Lemma tied_row_identity_sorts : Np.sorts Rle [1; 1] [0; 1]%Z.
Proof. split; [done|]. unfold Np.gather. simpl. repeat constructor; lra. Qed.

Lemma tied_row_swap_sorts : Np.sorts Rle [1; 1] [1; 0]%Z.
Proof.
  split; [apply perm_swap|]. unfold Np.gather. simpl. repeat constructor; lra.
Qed.

Lemma argsort_with_tie_sorts on_tie :
  Np.sorts Rle [1; 1] on_tie → ∀ a, Np.sorts Rle a (argsort_with_tie on_tie a).
Proof.
  intros Htie a. unfold argsort_with_tie. case_decide as Ha.
  - by rewrite Ha.
  - apply merge_argsort_sorts; apply _.
Qed.

Lemma argsort_contract_leaves_ties_open :
  ∃ sort1 sort2 : Np.Argsort R Rle,
    @Np.argsort _ _ _ sort1 [1; 1] = [0; 1]%Z
    ∧ @Np.argsort _ _ _ sort2 [1; 1] = [1; 0]%Z.
Proof.
  exists (Np.Build_Argsort _ _ _ _ (argsort_with_tie_sorts _ tied_row_identity_sorts)),
         (Np.Build_Argsort _ _ _ _ (argsort_with_tie_sorts _ tied_row_swap_sorts)).
  simpl. unfold argsort_with_tie. by rewrite !decide_True.
Qed.

(** * Further properties of the rating functions *)

(** ** Loops and subscripts under a change of state *)

Lemma for_each_ext_in {S A} (body body' : S → A → option S) xs s :
  (∀ s x, x ∈ xs → body s x = body' s x) →
  Py.for_each body xs s = Py.for_each body' xs s.
Proof.
  revert s. induction xs as [|x xs IH]; intros s Hext; simpl; [done|].
  rewrite (Hext s x) by constructor.
  destruct (body' s x) as [s1|]; simpl; [|done].
  apply IH. intros s2 y Hy. apply Hext. by constructor.
Qed.

Lemma for_each_fmap {S A} (f : S → S) (body body' : S → A → option S) xs s :
  (∀ s x, body' (f s) x = f <$> body s x) →
  Py.for_each body' xs (f s) = f <$> Py.for_each body xs s.
Proof.
  intros Hf. revert s. induction xs as [|x xs IH]; intros s; simpl; [done|].
  rewrite Hf. destruct (body s x) as [s1|]; simpl; [apply IH | done].
Qed.

Lemma getitem_fmap {A B} (f : A → B) (l : list A) i :
  Py.getitem (f <$> l) i = f <$> Py.getitem l i.
Proof.
  unfold Py.getitem. rewrite length_fmap.
  destruct (Py.index (length l) i) as [j|]; simpl; [|done].
  apply list_lookup_fmap.
Qed.

Lemma setitem_fmap {A B} (f : A → B) (l : list A) i v :
  Py.setitem (f <$> l) i (f v)
  = fmap (M:=option) (fmap (M:=list) f) (Py.setitem l i v).
Proof.
  unfold Py.setitem. rewrite length_fmap.
  destruct (Py.index (length l) i) as [j|]; simpl; [|done].
  by rewrite list_fmap_insert.
Qed.

Lemma index_is_Some n i :
  is_Some (Py.index n i) ↔ (- Z.of_nat n ≤ i < Z.of_nat n)%Z.
Proof.
  unfold Py.index. repeat case_bool_decide; split; intros H';
    try lia; try (by eexists); by destruct H'.
Qed.

Lemma getitem_is_Some {A} (l : list A) i :
  is_Some (Py.getitem l i) ↔ (- Z.of_nat (length l) ≤ i < Z.of_nat (length l))%Z.
Proof.
  rewrite <- index_is_Some. unfold Py.getitem. split.
  - intros [x Hx]. destruct (Py.index (length l) i); [by eexists | done].
  - intros [j Hj]. rewrite Hj. simpl. apply lookup_lt_is_Some_2.
    unfold Py.index in Hj. repeat case_bool_decide; simplify_eq; lia.
Qed.

Lemma setitem_is_Some {A} (l : list A) i v :
  is_Some (Py.setitem l i v) ↔ (- Z.of_nat (length l) ≤ i < Z.of_nat (length l))%Z.
Proof.
  rewrite <- index_is_Some. unfold Py.setitem.
  destruct (Py.index (length l) i) as [j|]; simpl.
  - split; intros _; by eexists.
  - split; intros [? ?]; done.
Qed.

(** ** The pairwise transfer: what it depends on *)

Lemma _elo_change_shift a b c k : _elo_change (a + c) (b + c) k = _elo_change a b k.
Proof. unfold _elo_change. by replace (b + c - (a + c)) with (b - a) by lra. Qed.

Lemma _elo_change_scale a b c k : _elo_change a b (c * k) = c * _elo_change a b k.
Proof. unfold _elo_change. unfold Rdiv. lra. Qed.

Lemma _elo_change_between a b k : 0 < k → 0 < _elo_change a b k < k.
Proof.
  intros Hk. unfold _elo_change.
  pose proof (pow10_pos ((b - a) / 400)) as Ht.
  set (t := Rpower 10 _) in *. split.
  - apply Rdiv_lt_0_compat; lra.
  - apply Rmult_lt_reg_r with (1 + t); [lra|].
    unfold Rdiv. rewrite Rmult_assoc, Rinv_l by lra. nra.
Qed.

(** X1: the transfer shrinks as the winner's rating lead grows: of two
    pairs, the one whose winner is further ahead (or less far behind)
    exchanges strictly less.  So an upset, where the winner was rated below
    the loser, moves more than [k / 2] and an expected result less. *)
Theorem _elo_change_decreasing rating_loser rating_winner rating_loser'
    rating_winner' k :
  0 < k →
  (rating_winner - rating_loser < rating_winner' - rating_loser' →
   _elo_change rating_loser' rating_winner' k
   < _elo_change rating_loser rating_winner k)
  ∧ (rating_winner < rating_loser →
     k / 2 < _elo_change rating_loser rating_winner k)
  ∧ (rating_loser < rating_winner →
     _elo_change rating_loser rating_winner k < k / 2).
Proof.
  intros Hk.
  assert (∀ l w l' w', w - l < w' - l' →
            _elo_change l' w' k < _elo_change l w k) as Hmono.
  { intros l w l' w' Hgap. unfold _elo_change.
    pose proof (pow10_pos ((w - l) / 400)) as Ht.
    assert (Rpower 10 ((w - l) / 400) < Rpower 10 ((w' - l') / 400)) as Hlt
      by (apply Rpower_lt; lra).
    unfold Rdiv. apply Rmult_lt_compat_l; [done|].
    apply Rinv_lt_contravar; [nra | lra]. }
  split_and!.
  - apply Hmono.
  - intros Hlt. rewrite <- (_elo_change_equal rating_loser k).
    apply Hmono. lra.
  - intros Hlt. rewrite <- (_elo_change_equal rating_loser k).
    apply Hmono. lra.
Qed.

Lemma _elo_change_decreasing_witness :
  (1400 - 1500 < 1600 - 1500 →
   _elo_change 1500 1600 20 < _elo_change 1500 1400 20)
  ∧ (1400 < 1500 → 20 / 2 < _elo_change 1500 1400 20)
  ∧ (1500 < 1400 → _elo_change 1500 1400 20 < 20 / 2).
Proof. apply (_elo_change_decreasing 1500 1400 1500 1600 20). lra. Defined.

(** ** The per-game update: what it depends on *)

(** X2: in exact real arithmetic only rating differences matter.  Adding
    the same constant to every current rating changes nothing in what
    [update_elos] does, whatever the ranking: it raises in the same cases
    and returns the same change vector. *)
Theorem update_elos_shift current_elos ranking elo_k c :
  update_elos ((λ r, r + c) <$> current_elos) ranking elo_k
  = update_elos current_elos ranking elo_k.
Proof.
  unfold update_elos. rewrite length_fmap.
  apply for_each_ext_in. intros ch j _. unfold update_elos_body.
  destruct (Py.getitem ranking (Z.of_nat j - 1)) as [a|]; simpl; [|done].
  destruct (Py.getitem ranking (Z.of_nat j)) as [b|]; simpl; [|done].
  rewrite !getitem_fmap.
  destruct (Py.getitem current_elos a) as [ra|]; simpl; [|done].
  destruct (Py.getitem current_elos b) as [rb|]; simpl; [|done].
  by rewrite _elo_change_shift.
Qed.

Lemma update_elos_body_scale current_elos ranking elo_k c elo_change j :
  update_elos_body current_elos ranking (c * elo_k) (Rmult c <$> elo_change) j
  = fmap (M:=option) (fmap (M:=list) (Rmult c))
      (update_elos_body current_elos ranking elo_k elo_change j).
Proof.
  unfold update_elos_body.
  destruct (Py.getitem ranking (Z.of_nat j - 1)) as [a|]; simpl; [|done].
  destruct (Py.getitem ranking (Z.of_nat j)) as [b|]; simpl; [|done].
  destruct (Py.getitem current_elos a) as [ra|]; simpl; [|done].
  destruct (Py.getitem current_elos b) as [rb|]; simpl; [|done].
  rewrite _elo_change_scale. set (delta := _elo_change ra rb elo_k).
  rewrite getitem_fmap.
  destruct (Py.getitem elo_change a) as [ol|]; simpl; [|done].
  replace (c * ol - c * delta) with (c * (ol - delta)) by lra.
  rewrite setitem_fmap.
  destruct (Py.setitem elo_change a (ol - delta)) as [c1|]; simpl; [|done].
  rewrite getitem_fmap.
  destruct (Py.getitem c1 b) as [ow|]; simpl; [|done].
  replace (c * ow + c * delta) with (c * (ow + delta)) by lra.
  apply setitem_fmap.
Qed.

(** X3: in exact real arithmetic the change vector is proportional to the
    learning rate.  Running [update_elos] with [c * k] gives [c] times the
    change vector of [k], whatever the ranking, and raises in the same
    cases; with [k = 0] nobody's rating moves. *)
Theorem update_elos_scale current_elos ranking elo_k c :
  update_elos current_elos ranking (c * elo_k)
  = fmap (M:=option) (fmap (M:=list) (Rmult c))
      (update_elos current_elos ranking elo_k).
Proof.
  unfold update_elos.
  rewrite <- (for_each_fmap (fmap (Rmult c))
                (update_elos_body current_elos ranking elo_k)
                (update_elos_body current_elos ranking (c * elo_k))).
  - by rewrite fmap_replicate, Rmult_0_r.
  - intros ch j. apply update_elos_body_scale.
Qed.

(** ** The per-game update: when it raises *)

Lemma update_elos_body_is_Some current_elos ranking elo_k elo_change j :
  length elo_change = length current_elos →
  is_Some (update_elos_body current_elos ranking elo_k elo_change j)
  ↔ ∃ a b, Py.getitem ranking (Z.of_nat j - 1) = Some a
           ∧ Py.getitem ranking (Z.of_nat j) = Some b
           ∧ (- Z.of_nat (length current_elos) ≤ a < Z.of_nat (length current_elos))%Z
           ∧ (- Z.of_nat (length current_elos) ≤ b < Z.of_nat (length current_elos))%Z.
Proof.
  intros Hlen. unfold update_elos_body.
  destruct (Py.getitem ranking (Z.of_nat j - 1)) as [a|]; simpl;
    [|split; [by intros [? ?] | by intros (? & ? & [=] & _)]].
  destruct (Py.getitem ranking (Z.of_nat j)) as [b|]; simpl;
    [|split; [by intros [? ?] | by intros (? & ? & _ & [=] & _)]].
  split.
  - intros Hsome.
    assert (is_Some (Py.getitem current_elos a)) as Ha.
    { destruct (Py.getitem current_elos a); [by eexists | by destruct Hsome]. }
    assert (is_Some (Py.getitem current_elos b)) as Hb.
    { destruct (Py.getitem current_elos a); simpl in Hsome; [|by destruct Hsome].
      destruct (Py.getitem current_elos b); [by eexists | by destruct Hsome]. }
    apply getitem_is_Some in Ha, Hb. by exists a, b.
  - intros (a' & b' & [= <-] & [= <-] & Ha & Hb).
    destruct (proj2 (getitem_is_Some current_elos a) Ha) as [ra ->].
    destruct (proj2 (getitem_is_Some current_elos b) Hb) as [rb ->]. simpl.
    rewrite <- Hlen in Ha, Hb.
    destruct (proj2 (getitem_is_Some elo_change a) Ha) as [ol ->]. simpl.
    destruct (proj2 (setitem_is_Some elo_change a
                       (ol - _elo_change ra rb elo_k)) Ha) as [c1 Hc1].
    rewrite Hc1. simpl.
    assert (length c1 = length elo_change) as Hlen1.
    { unfold Py.setitem in Hc1. simplify_option_eq. apply length_insert. }
    rewrite <- Hlen1 in Hb.
    destruct (proj2 (getitem_is_Some c1 b) Hb) as [ow ->]. simpl.
    by apply setitem_is_Some.
Qed.

(** X4: when [update_elos] raises [IndexError].  Floats are read as reals,
    so [10 ** x] never overflows and [None] stands for [IndexError] alone
    (numpy's [float64], which [main] passes, does not raise on overflow
    either; plain Python floats raise [OverflowError] beyond a rating gap of
    about 123000, which is outside this statement).  With at most one player
    nothing is raised; with [P >= 2] players a change vector is returned if
    and only if the ranking has at least [P] entries and each of its first
    [P] entries is a valid Python subscript of the ratings, that is, lies in
    [-P, P). *)
Theorem update_elos_raises_iff current_elos ranking elo_k :
  is_Some (update_elos current_elos ranking elo_k)
  ↔ (length current_elos ≤ 1)%nat
    ∨ ((length current_elos ≤ length ranking)%nat
       ∧ ∀ j r, (j < length current_elos)%nat → ranking !! j = Some r →
           (- Z.of_nat (length current_elos) ≤ r < Z.of_nat (length current_elos))%Z).
Proof.
  set (P := length current_elos).
  set (ok := λ j : nat,
    ∃ a b, ranking !! (j - 1)%nat = Some a ∧ ranking !! j = Some b
           ∧ (- Z.of_nat P ≤ a < Z.of_nat P)%Z ∧ (- Z.of_nat P ≤ b < Z.of_nat P)%Z).
  assert (is_Some (update_elos current_elos ranking elo_k)
          ↔ Forall ok (Py.range 1 P)) as ->.
  { unfold update_elos. fold P.
    assert (∀ j, j ∈ Py.range 1 P → (1 ≤ j)%nat) as Hge.
    { intros j Hj. unfold Py.range in Hj. apply elem_of_seq in Hj. lia. }
    revert Hge. generalize (Py.range 1 P). intros js Hge.
    assert (length (replicate P 0) = P) as Hlen0 by apply length_replicate.
    revert Hlen0. generalize (replicate P 0). induction js as [|j js IH];
      intros ch Hch; simpl.
    - split; [by constructor | by eexists].
    - rewrite Forall_cons.
      pose proof (update_elos_body_is_Some current_elos ranking elo_k ch j Hch)
        as Hbody.
      replace (Z.of_nat j - 1)%Z with (Z.of_nat (j - 1)) in Hbody
        by (specialize (Hge j ltac:(constructor)); lia).
      rewrite !getitem_of_nat in Hbody. fold P in Hbody. fold (ok j) in Hbody.
      destruct (update_elos_body current_elos ranking elo_k ch j) as [ch1|] eqn:Hb;
        simpl.
      + rewrite IH.
        * split; [|by intros [_ ?]]. intros ?. split; [|done].
          apply Hbody. by eexists.
        * intros j' Hj'. apply Hge. by constructor.
        * apply update_elos_body_sum in Hb as [-> _]. done.
      + split; [by intros [? ?]|]. intros [Hj _].
        apply Hbody in Hj. by destruct Hj. }
  rewrite Forall_forall. unfold Py.range. split.
  - intros Hall. destruct (decide (P ≤ 1)%nat) as [|HP]; [by left | right].
    assert (∀ j, (j < P)%nat →
              ∃ r, ranking !! j = Some r ∧ (- Z.of_nat P ≤ r < Z.of_nat P)%Z) as Hj.
    { intros j Hj. destruct (decide (j = 0)%nat) as [->|Hne].
      - destruct (Hall 1%nat) as (a & b & Ha & _ & Hva & _).
        { apply elem_of_seq. lia. }
        exists a. done.
      - destruct (Hall j) as (a & b & _ & Hb & _ & Hvb).
        { apply elem_of_seq. lia. }
        exists b. done. }
    split.
    + destruct (Hj (P - 1)%nat ltac:(lia)) as (r & Hr & _).
      apply lookup_lt_Some in Hr. lia.
    + intros j r Hlt Hr. destruct (Hj j Hlt) as (r' & Hr' & Hv). congruence.
  - intros [HP|[Hlen Hvalid]] j Hj; apply elem_of_seq in Hj; [lia|].
    destruct (lookup_lt_is_Some_2 ranking (j - 1)) as [a Ha]; [lia|].
    destruct (lookup_lt_is_Some_2 ranking j) as [b Hb]; [lia|].
    pose proof (Hvalid (j - 1)%nat a ltac:(lia) Ha).
    pose proof (Hvalid j b ltac:(lia) Hb).
    by exists a, b.
Qed.

(** X5: in exact real arithmetic [update_elos] never creates or destroys
    rating.  Whatever the ranking holds (repeated players, negative
    subscripts, entries beyond the first [P]), a change vector that is
    returned has one entry per player and sums to zero. *)
Theorem update_elos_conserves_rating current_elos ranking elo_k elo_change :
  update_elos current_elos ranking elo_k = Some elo_change →
  length elo_change = length current_elos ∧ sum_R elo_change = 0.
Proof.
  unfold update_elos. intros Hrun.
  assert (length (replicate (length current_elos) 0) = length current_elos
          ∧ sum_R (replicate (length current_elos) 0) = 0) as Hinit
    by (by rewrite length_replicate, sum_R_replicate_0).
  revert Hrun Hinit. generalize (replicate (length current_elos) 0).
  induction (Py.range 1 (length current_elos)) as [|j js IH];
    intros ch Hrun [Hlen Hsum]; simplify_eq/=; [done|].
  destruct (update_elos_body current_elos ranking elo_k ch j) as [ch1|] eqn:Hb;
    simplify_eq/=.
  apply update_elos_body_sum in Hb as [Hlen1 Hsum1].
  apply (IH ch1 Hrun). split; congruence.
Qed.

Lemma update_elos_conserves_rating_witness :
  length [-10; 10] = length [1500; 1500] ∧ sum_R [-10; 10] = 0.
Proof.
  apply (update_elos_conserves_rating [1500; 1500] [-2; -1]%Z 20 [-10; 10]).
  apply negative_indices_count_from_the_end.
Defined.

(** X6: with [P <= length ranking] only the first [P] entries of the ranking
    are read: whatever follows them does not change the result. *)
Theorem update_elos_ignores_tail current_elos ranking extra elo_k :
  (length current_elos ≤ length ranking)%nat →
  update_elos current_elos (ranking ++ extra) elo_k
  = update_elos current_elos ranking elo_k.
Proof.
  intros Hlen. unfold update_elos. apply for_each_ext_in.
  intros ch j Hj. unfold Py.range in Hj. apply elem_of_seq in Hj.
  unfold update_elos_body.
  replace (Z.of_nat j - 1)%Z with (Z.of_nat (j - 1)) by lia.
  rewrite !(getitem_of_nat (ranking ++ extra)), !(getitem_of_nat ranking).
  by rewrite !lookup_app_l by lia.
Qed.

Lemma update_elos_ignores_tail_witness :
  update_elos [1500; 1500] ([0; 1]%Z ++ [7]%Z) 20
  = update_elos [1500; 1500] [0; 1]%Z 20.
Proof.
  apply (update_elos_ignores_tail [1500; 1500] [0; 1]%Z [7]%Z 20). simpl. lia.
Defined.

Lemma pair_delta_between current_elos ranking elo_k j :
  0 < elo_k → 0 < pair_delta current_elos ranking elo_k j < elo_k.
Proof. intros Hk. unfold pair_delta. by apply _elo_change_between. Qed.

Lemma arange_position (ranking : list Z) n p :
  ranking ≡ₚ Np.arange n → (p < n)%nat →
  ∃ i, (i < n)%nat ∧ ranking !! i = Some (Z.of_nat p).
Proof.
  intros Hperm Hp.
  assert (Z.of_nat p ∈ ranking) as Hin.
  { rewrite Hperm. apply arange_elem. by exists p. }
  apply list_elem_of_lookup_1 in Hin as [i Hi]. exists i. split; [|done].
  apply lookup_lt_Some in Hi.
  by rewrite Hperm, arange_length in Hi.
Qed.

(** X7: in exact real arithmetic, in one game, with [k > 0] and a ranking
    that is a permutation of the players, nobody's rating moves by [k] or
    more.  With at least two players the player listed last (in [main]: the
    highest score) gains strictly and the player listed first (the lowest
    score) loses strictly. *)
Theorem update_elos_bounded current_elos ranking elo_k :
  ranking ≡ₚ Np.arange (length current_elos) →
  0 < elo_k →
  ∃ elo_change,
    update_elos current_elos ranking elo_k = Some elo_change
    ∧ (∀ p x, elo_change !! p = Some x → - elo_k < x < elo_k)
    ∧ ((2 ≤ length current_elos)%nat →
       ∀ first last,
         ranking !! 0%nat = Some (Z.of_nat first) →
         ranking !! (length current_elos - 1)%nat = Some (Z.of_nat last) →
         ∃ x y, elo_change !! first = Some x ∧ elo_change !! last = Some y
                ∧ - elo_k < x < 0 ∧ 0 < y < elo_k).
Proof.
  intros Hperm Hk.
  destruct (update_elos_perm current_elos ranking elo_k Hperm)
    as (ch & Hch & Hlen & Hget).
  assert (∀ i p, ranking !! i = Some (Z.of_nat p) →
            (p < length current_elos)%nat) as Hplayer.
  { intros i p Hi. apply list_elem_of_lookup_2 in Hi. rewrite Hperm in Hi.
    apply arange_elem in Hi as (p' & Heq & Hp'). lia. }
  exists ch. split_and!; [done| |].
  - intros p x Hx.
    assert (p < length current_elos)%nat as Hp.
    { apply lookup_lt_Some in Hx. lia. }
    destruct (arange_position ranking _ p Hperm Hp) as (i & Hi & Hri).
    rewrite (Hget p Hp) in Hx. injection Hx as <-.
    rewrite (game_gain_position _ _ _ i p Hperm Hri).
    pose proof (pair_delta_between current_elos ranking elo_k i Hk).
    pose proof (pair_delta_between current_elos ranking elo_k (S i) Hk).
    repeat case_decide; lra.
  - intros HP first last Hfirst Hlast.
    exists (game_gain current_elos ranking elo_k first),
           (game_gain current_elos ranking elo_k last).
    rewrite (Hget first), (Hget last) by eauto.
    rewrite (game_gain_position _ _ _ _ _ Hperm Hfirst).
    rewrite (game_gain_position _ _ _ _ _ Hperm Hlast).
    pose proof (pair_delta_between current_elos ranking elo_k 1 Hk).
    pose proof (pair_delta_between current_elos ranking elo_k
                  (length current_elos - 1) Hk).
    repeat case_decide; try lia. split_and!; (done || lra).
Qed.

Lemma update_elos_bounded_witness :
  ∃ elo_change,
    update_elos [1500; 1510; 1490] [2; 0; 1]%Z 20 = Some elo_change
    ∧ (∀ p x, elo_change !! p = Some x → - 20 < x < 20)
    ∧ ((2 ≤ 3)%nat →
       ∀ first last,
         [2; 0; 1]%Z !! 0%nat = Some (Z.of_nat first) →
         [2; 0; 1]%Z !! (3 - 1)%nat = Some (Z.of_nat last) →
         ∃ x y, elo_change !! first = Some x ∧ elo_change !! last = Some y
                ∧ - 20 < x < 0 ∧ 0 < y < 20).
Proof.
  apply (update_elos_bounded [1500; 1510; 1490] [2; 0; 1]%Z 20).
  - apply (Permutation_cons_append [0; 1]%Z 2%Z).
  - lra.
Defined.

(** * Further properties of the rating loop of [main] *)

Lemma sum_R_app l1 l2 : sum_R (l1 ++ l2) = sum_R l1 + sum_R l2.
Proof. induction l1 as [|x l1 IH]; simpl; [lra | rewrite IH; lra]. Qed.

Lemma seed_sum P : sum_R (seed P) = 1500 * INR P + INR P * (INR P - 1) / 2.
Proof.
  induction P as [|P IH].
  - simpl. lra.
  - unfold seed, Np.arange in *. rewrite seq_S, !fmap_app, sum_R_app, IH.
    rewrite S_INR. simpl. rewrite <- INR_IZR_INZ. lra.
Qed.

Section loop_recurrence.
Context `{!Np.Argsort R Rle}.

(** One turn of the loop writes row [n + 1] as row [n] plus the change
    vector of game [n], and lowers [k]. *)
Lemma elo_game_step P G n st s :
  elo_inv P G n st → (n < G)%nat → length s = P →
  ∃ row change,
    elos st !! n = Some row
    ∧ update_elos row (Np.argsort s) (k st) = Some change
    ∧ length row = P ∧ length change = P
    ∧ elo_game st (n, s)
      = Some (LoopState (<[S n := zip_with Rplus row change]> (elos st))
                (Rmax (0.99 * k st) 1)).
Proof.
  intros (Hlen & Hrows & Hrow0 & Hsums & Hk) Hn Hs.
  destruct (Hsums n) as (current & Hcur & Hsum); [lia|].
  assert (length current = P) as HcurP.
  { eapply (Forall_lookup_1 _ _ _ _ Hrows Hcur). }
  destruct (update_elos_perm current (Np.argsort s) (k st))
    as (change & Hchange & HchangeP & _).
  { rewrite HcurP, <- Hs. apply Np.argsort_sorts. }
  exists current, change. split_and!; [done.. | lia |].
  unfold elo_game. rewrite getitem_of_nat, Hcur. simpl. rewrite Hchange. simpl.
  replace (Z.of_nat n + 1)%Z with (Z.of_nat (S n)) by lia.
  by rewrite setitem_of_nat by lia.
Qed.

(** The history after [n] games, row by row. *)
Definition elo_recurrence (scores : list (list R)) (n : nat) (st : loop_state)
    : Prop :=
  ∀ i s, (i < n)%nat → scores !! i = Some s →
    ∃ row change,
      elos st !! i = Some row
      ∧ update_elos row (Np.argsort s) (Rmax (0.99 ^ i * 20) 1) = Some change
      ∧ length row = length change
      ∧ elos st !! S i = Some (zip_with Rplus row change).

Lemma elo_after_recurrence n P scores :
  rectangular P scores → (n ≤ length scores)%nat →
  ∃ st, elo_after n P scores = Some st
        ∧ elo_inv P (length scores) n st
        ∧ elo_recurrence scores n st.
Proof.
  intros Hrect. induction n as [|n IH]; intros Hn.
  - destruct (elo_after_inv 0 P scores Hrect Hn) as (st & Hst & Hinv).
    exists st. split_and!; [done..|]. intros i s Hi. lia.
  - destruct IH as (st & Hst & Hinv & Hrec); [lia|].
    destruct (lookup_lt_is_Some_2 scores n) as [s Hs]; [lia|].
    assert (length s = P) as HsP by (eapply (Forall_lookup_1 _ _ _ _ Hrect Hs)).
    destruct (elo_game_step P (length scores) n st s Hinv)
      as (row & change & Hrow & Hchange & HrowP & HchangeP & Hgame); [lia | done |].
    destruct (elo_after_inv (S n) P scores Hrect Hn) as (st' & Hst' & Hinv').
    assert (elo_after (S n) P scores = elo_game st (n, s)) as Hstep
      by (by rewrite (elo_after_S _ _ _ _ Hs), Hst).
    rewrite Hstep, Hgame in Hst'. injection Hst' as <-.
    eexists. split_and!; [by rewrite Hstep, Hgame | done |].
    destruct Hinv as (Hlen & _ & _ & _ & Hk).
    intros i s' Hi Hs'. simpl. destruct (decide (i = n)) as [->|Hne].
    + assert (s' = s) as -> by congruence.
      exists row, change. rewrite Hk, k_after_closed_form in Hchange.
      split_and!; [|done|lia|].
      * by rewrite list_lookup_insert_ne by lia.
      * apply list_lookup_insert_eq. lia.
    + destruct (Hrec i s') as (row' & change' & H1 & H2 & H3 & H4); [lia | done |].
      exists row', change'.
      by rewrite !list_lookup_insert_ne by lia.
Qed.

(** X8: the history obeys the rating recurrence.  On a rectangular score
    table the pass returns a history in which, for every game [i], row
    [i + 1] is row [i] plus the change vector that [update_elos] computes
    from row [i], the ascending order of the scores of game [i], and the
    learning rate of that game: 20 after [i] applications of
    [k = max(0.99 * k, 1)]. *)
Theorem running_elos_recurrence (num_players : nat) (scores : list (list R)) :
  rectangular num_players scores →
  ∃ st, running_elos num_players scores = Some st
        ∧ ∀ i s, scores !! i = Some s →
            ∃ row change,
              elos st !! i = Some row
              ∧ update_elos row (Np.argsort s)
                  (Nat.iter i (λ k, Rmax (0.99 * k) 1) 20)
                = Some change
              ∧ length row = length change
              ∧ elos st !! S i = Some (zip_with Rplus row change).
Proof.
  intros Hrect.
  destruct (elo_after_recurrence (length scores) num_players scores Hrect)
    as (st & Hst & _ & Hrec); [lia|].
  exists st. rewrite running_elos_after. split; [done|].
  intros i s Hs.
  destruct (Hrec i s) as (row & change & Hrow & Hchange & Hlen & Hnext);
    [by eapply lookup_lt_Some | done |].
  exists row, change. split_and!; [done | | done..].
  fold (k_after i). by rewrite k_after_closed_form.
Qed.

(** X9: the total rating never changes and has a closed form: on a
    rectangular score table with [P] players every row of the history sums
    to [1500 * P + P * (P - 1) / 2]. *)
Theorem running_elos_total (num_players : nat) (scores : list (list R)) :
  rectangular num_players scores →
  ∃ st, running_elos num_players scores = Some st
        ∧ ∀ i row, elos st !! i = Some row →
            sum_R row = 1500 * INR num_players
                        + INR num_players * (INR num_players - 1) / 2.
Proof.
  intros Hrect.
  destruct (elo_after_inv (length scores) num_players scores Hrect)
    as (st & Hst & Hlen & _ & _ & Hsums & _); [lia|].
  exists st. rewrite running_elos_after. split; [done|].
  intros i row Hrow.
  destruct (Hsums i) as (row' & Hrow' & Hsum).
  { apply lookup_lt_Some in Hrow. lia. }
  rewrite <- seed_sum. congruence.
Qed.

End loop_recurrence.

Lemma running_elos_recurrence_witness :
  ∃ st, @running_elos merge_argsort_R 3 [[10; 5; 20]] = Some st
        ∧ ∀ i s, [[10; 5; 20]] !! i = Some s →
            ∃ row change,
              elos st !! i = Some row
              ∧ update_elos row (@Np.argsort _ _ _ merge_argsort_R s)
                  (Nat.iter i (λ k, Rmax (0.99 * k) 1) 20) = Some change
              ∧ length row = length change
              ∧ elos st !! S i = Some (zip_with Rplus row change).
Proof.
  apply (@running_elos_recurrence merge_argsort_R 3 [[10; 5; 20]]).
  apply rectangular_one_game.
Defined.

Lemma running_elos_total_witness :
  ∃ st, @running_elos merge_argsort_R 3 [[10; 5; 20]] = Some st
        ∧ ∀ i row, elos st !! i = Some row →
            sum_R row = 1500 * INR 3 + INR 3 * (INR 3 - 1) / 2.
Proof.
  apply (@running_elos_total merge_argsort_R 3 [[10; 5; 20]]).
  apply rectangular_one_game.
Defined.

(** ** How far and which way the ratings move *)

Lemma update_elos_perm_move current_elos ranking elo_k elo_change p x :
  ranking ≡ₚ Np.arange (length current_elos) → 0 < elo_k →
  update_elos current_elos ranking elo_k = Some elo_change →
  elo_change !! p = Some x → - elo_k < x < elo_k.
Proof.
  intros Hperm Hk Hch Hx.
  destruct (update_elos_perm current_elos ranking elo_k Hperm)
    as (ch & Hch' & Hlen & Hget).
  assert (ch = elo_change) as -> by congruence.
  assert (p < length current_elos)%nat as Hp.
  { apply lookup_lt_Some in Hx. lia. }
  destruct (arange_position ranking _ p Hperm Hp) as (i & Hi & Hri).
  rewrite (Hget p Hp) in Hx. injection Hx as <-.
  rewrite (game_gain_position _ _ _ i p Hperm Hri).
  pose proof (pair_delta_between current_elos ranking elo_k i Hk).
  pose proof (pair_delta_between current_elos ranking elo_k (S i) Hk).
  repeat case_decide; lra.
Qed.

Lemma update_elos_perm_last current_elos ranking elo_k elo_change p :
  ranking ≡ₚ Np.arange (length current_elos) → 0 < elo_k →
  (2 ≤ length current_elos)%nat →
  update_elos current_elos ranking elo_k = Some elo_change →
  ranking !! (length current_elos - 1)%nat = Some (Z.of_nat p) →
  ∃ x, elo_change !! p = Some x ∧ 0 < x.
Proof.
  intros Hperm Hk HP Hch Hp.
  destruct (update_elos_perm current_elos ranking elo_k Hperm)
    as (ch & Hch' & Hlen & Hget).
  assert (ch = elo_change) as -> by congruence.
  assert (p < length current_elos)%nat as Hlt.
  { apply list_elem_of_lookup_2 in Hp. rewrite Hperm in Hp.
    apply arange_elem in Hp as (p' & Heq & Hp'). lia. }
  eexists. split; [by apply Hget|].
  rewrite (game_gain_position _ _ _ _ _ Hperm Hp).
  pose proof (pair_delta_between current_elos ranking elo_k
                (length current_elos - 1) Hk).
  repeat case_decide; try lia. lra.
Qed.

Lemma update_elos_perm_first current_elos ranking elo_k elo_change p :
  ranking ≡ₚ Np.arange (length current_elos) → 0 < elo_k →
  (2 ≤ length current_elos)%nat →
  update_elos current_elos ranking elo_k = Some elo_change →
  ranking !! 0%nat = Some (Z.of_nat p) →
  ∃ x, elo_change !! p = Some x ∧ x < 0.
Proof.
  intros Hperm Hk HP Hch Hp.
  destruct (update_elos_perm current_elos ranking elo_k Hperm)
    as (ch & Hch' & Hlen & Hget).
  assert (ch = elo_change) as -> by congruence.
  assert (p < length current_elos)%nat as Hlt.
  { apply list_elem_of_lookup_2 in Hp. rewrite Hperm in Hp.
    apply arange_elem in Hp as (p' & Heq & Hp'). lia. }
  eexists. split; [by apply Hget|].
  rewrite (game_gain_position _ _ _ _ _ Hperm Hp).
  pose proof (pair_delta_between current_elos ranking elo_k 1 Hk).
  repeat case_decide; try lia. lra.
Qed.

Lemma rate_between i : 1 <= Rmax (0.99 ^ i * 20) 1 <= 20.
Proof.
  rewrite <- k_after_closed_form. split; [apply k_after_ge_1|].
  apply (k_after_mono 0 i). lia.
Qed.

Section loop_moves.
Context `{!Np.Argsort R Rle}.

(** The score of the player in the last (first) position of the sorted
    order when one score is strictly the largest (smallest). *)
Lemma argsort_top (s : list R) a x :
  s !! a = Some x → (∀ b y, b ≠ a → s !! b = Some y → y < x) →
  Np.argsort s !! (length s - 1)%nat = Some (Z.of_nat a).
Proof.
  intros Hx Hmax.
  assert (a < length s)%nat as Ha by (by eapply lookup_lt_Some).
  destruct (arange_lookup (Np.argsort s) (length s) (length s - 1))
    as (b & Hb & Hpb); [apply Np.argsort_sorts | lia |].
  destruct (arange_position (Np.argsort s) (length s) a)
    as (i & Hi & Hpi); [apply Np.argsort_sorts | done |].
  destruct (lookup_lt_is_Some_2 s b Hb) as [y Hy].
  destruct (decide (b = a)) as [->|Hne]; [done|].
  pose proof (Hmax b y Hne Hy).
  assert (x <= y); [|lra].
  destruct (Np.argsort_sorts s) as [_ Hs].
  apply Sorted_StronglySorted in Hs; [|apply _].
  eapply (StronglySorted_lookup_le Rle _ i (length s - 1)); [done | lia | |].
  - unfold Np.gather. rewrite list_lookup_fmap, Hpi. simpl.
    by rewrite Nat2Z.id, (list_lookup_total_correct _ _ _ Hx).
  - unfold Np.gather. rewrite list_lookup_fmap, Hpb. simpl.
    by rewrite Nat2Z.id, (list_lookup_total_correct _ _ _ Hy).
Qed.

Lemma argsort_bottom (s : list R) a x :
  s !! a = Some x → (∀ b y, b ≠ a → s !! b = Some y → x < y) →
  Np.argsort s !! 0%nat = Some (Z.of_nat a).
Proof.
  intros Hx Hmin.
  assert (a < length s)%nat as Ha by (by eapply lookup_lt_Some).
  destruct (arange_lookup (Np.argsort s) (length s) 0)
    as (b & Hb & Hpb); [apply Np.argsort_sorts | lia |].
  destruct (arange_position (Np.argsort s) (length s) a)
    as (i & Hi & Hpi); [apply Np.argsort_sorts | done |].
  destruct (lookup_lt_is_Some_2 s b Hb) as [y Hy].
  destruct (decide (b = a)) as [->|Hne]; [done|].
  pose proof (Hmin b y Hne Hy).
  assert (y <= x); [|lra].
  destruct (Np.argsort_sorts s) as [_ Hs].
  apply Sorted_StronglySorted in Hs; [|apply _].
  eapply (StronglySorted_lookup_le Rle _ 0 i); [done | lia | |].
  - unfold Np.gather. rewrite list_lookup_fmap, Hpb. simpl.
    by rewrite Nat2Z.id, (list_lookup_total_correct _ _ _ Hy).
  - unfold Np.gather. rewrite list_lookup_fmap, Hpi. simpl.
    by rewrite Nat2Z.id, (list_lookup_total_correct _ _ _ Hx).
Qed.

(** X10: in exact real arithmetic ratings move slowly.  In game [i] no
    rating moves by as much as the learning rate [max(0.99 ^ i * 20, 1)] of
    that game, which is never more than 20; so after [n] games every
    player's rating is within [20 * n] of its seed [1500 + p]. *)
Theorem running_elos_bounded_moves (num_players : nat) (scores : list (list R)) :
  rectangular num_players scores →
  ∃ st, running_elos num_players scores = Some st
        ∧ (∀ i p row row' x y,
             (i < length scores)%nat →
             elos st !! i = Some row → elos st !! S i = Some row' →
             row !! p = Some x → row' !! p = Some y →
             - Rmax (0.99 ^ i * 20) 1 < y - x < Rmax (0.99 ^ i * 20) 1)
        ∧ (∀ n p row x,
             elos st !! n = Some row → row !! p = Some x →
             1500 + INR p - 20 * INR n <= x <= 1500 + INR p + 20 * INR n).
Proof.
  intros Hrect.
  destruct (elo_after_recurrence (length scores) num_players scores Hrect)
    as (st & Hst & (Hlen & _ & Hrow0 & _) & Hrec); [lia|].
  exists st. rewrite running_elos_after. split; [done|].
  assert (∀ i p row row' x y,
             (i < length scores)%nat →
             elos st !! i = Some row → elos st !! S i = Some row' →
             row !! p = Some x → row' !! p = Some y →
             - Rmax (0.99 ^ i * 20) 1 < y - x < Rmax (0.99 ^ i * 20) 1) as Hmove.
  { intros i p row row' x y Hi Hrow Hrow' Hx Hy.
    destruct (lookup_lt_is_Some_2 scores i Hi) as [s Hs].
    destruct (Hrec i s Hi Hs) as (r & change & Hr & Hchange & Hrc & Hr').
    assert (r = row) as -> by congruence.
    assert (row' = zip_with Rplus row change) as -> by congruence.
    rewrite lookup_zip_with, Hx in Hy. simpl in Hy.
    destruct (change !! p) as [c|] eqn:Hc; simplify_eq/=.
    pose proof (rate_between i) as [Hk1 _].
    assert (length s = length row) as Hsrow.
    { apply update_elos_sum in Hchange as [Hcl _].
      rewrite <- Hcl, <- Hrc. clear Hcl.
      pose proof (Forall_lookup_1 _ _ _ _ Hrect Hs) as HsP. simpl in HsP.
      destruct (elo_after_inv (length scores) num_players scores Hrect
                  ltac:(lia)) as (st2 & Hst2 & _ & Hrows & _).
      assert (st2 = st) as -> by congruence.
      pose proof (Forall_lookup_1 _ _ _ _ Hrows Hrow) as HrP. simpl in HrP.
      lia. }
    pose proof (update_elos_perm_move row (Np.argsort s) (Rmax (0.99 ^ i * 20) 1) change p c) as Hb.
    replace (x + c - x) with c by lra. apply Hb; [|lra|done..].
    rewrite <- Hsrow. apply Np.argsort_sorts. }
  split; [exact Hmove|].
  intros n. induction n as [|n IH]; intros p row x Hrow Hx.
  - rewrite Hrow0 in Hrow. injection Hrow as <-.
    assert (p < num_players)%nat as Hp.
    { apply lookup_lt_Some in Hx. by rewrite seed_length in Hx. }
    rewrite (seed_lookup _ _ Hp) in Hx. injection Hx as <-. simpl. lra.
  - assert (S n < length (elos st))%nat as Hn by (by eapply lookup_lt_Some).
    destruct (lookup_lt_is_Some_2 (elos st) n) as [row0 Hrow0']; [lia|].
    destruct (lookup_lt_is_Some_2 scores n) as [s Hs]; [lia|].
    destruct (Hrec n s ltac:(lia) Hs) as (r & change & Hr & Hchange & Hrc & Hr').
    assert (r = row0) as -> by congruence.
    assert (row = zip_with Rplus row0 change) as Heq by congruence.
    assert (∃ x0, row0 !! p = Some x0) as [x0 Hx0].
    { rewrite Heq, lookup_zip_with in Hx.
      destruct (row0 !! p); [by eexists | done]. }
    pose proof (IH p row0 x0 Hrow0' Hx0) as Hprev.
    pose proof (Hmove n p row0 row x0 x ltac:(lia) Hrow0' Hrow Hx0 Hx) as Hstep.
    pose proof (rate_between n) as [_ Hk20].
    rewrite S_INR. lra.
Qed.

(** X11: in exact real arithmetic winning pays.  In a game with at least
    two players, a player whose score is strictly the highest of the game
    has a strictly higher rating after the game than before, and a player
    whose score is strictly the lowest a strictly lower one. *)
Theorem running_elos_winner_gains (num_players : nat) (scores : list (list R)) :
  rectangular num_players scores → (2 ≤ num_players)%nat →
  ∃ st, running_elos num_players scores = Some st
        ∧ ∀ i s a sa, scores !! i = Some s → s !! a = Some sa →
            ∃ row row' x x',
              elos st !! i = Some row ∧ elos st !! S i = Some row'
              ∧ row !! a = Some x ∧ row' !! a = Some x'
              ∧ ((∀ b y, b ≠ a → s !! b = Some y → y < sa) → x < x')
              ∧ ((∀ b y, b ≠ a → s !! b = Some y → sa < y) → x' < x).
Proof.
  intros Hrect HP.
  destruct (elo_after_recurrence (length scores) num_players scores Hrect)
    as (st & Hst & (Hlen & Hrows & _) & Hrec); [lia|].
  exists st. rewrite running_elos_after. split; [done|].
  intros i s a sa Hs Ha.
  assert (i < length scores)%nat as Hi by (by eapply lookup_lt_Some).
  destruct (Hrec i s Hi Hs) as (row & change & Hrow & Hchange & Hrc & Hrow').
  pose proof (Forall_lookup_1 _ _ _ _ Hrect Hs) as HsP. simpl in HsP.
  pose proof (Forall_lookup_1 _ _ _ _ Hrows Hrow) as HrP. simpl in HrP.
  assert (a < num_players)%nat as HaP.
  { apply lookup_lt_Some in Ha. lia. }
  destruct (lookup_lt_is_Some_2 row a) as [x Hx]; [lia|].
  destruct (lookup_lt_is_Some_2 change a) as [c Hc]; [lia|].
  assert (Np.argsort s ≡ₚ Np.arange (length row)) as Hperm.
  { rewrite HrP, <- HsP. apply Np.argsort_sorts. }
  pose proof (rate_between i) as [Hk1 _].
  exists row, (zip_with Rplus row change), x, (x + c).
  split_and!; [done..| | |].
  - by rewrite lookup_zip_with, Hx, Hc.
  - intros Hmax.
    pose proof (argsort_top s a sa Ha Hmax) as Htop.
    destruct (update_elos_perm_last row (Np.argsort s) (Rmax (0.99 ^ i * 20) 1) change a Hperm)
      as (c' & Hc' & Hpos); [lra | lia | done | |].
    + by rewrite HrP, <- HsP.
    + assert (c' = c) as -> by congruence. lra.
  - intros Hmin.
    pose proof (argsort_bottom s a sa Ha Hmin) as Hbot.
    destruct (update_elos_perm_first row (Np.argsort s) (Rmax (0.99 ^ i * 20) 1) change a Hperm)
      as (c' & Hc' & Hneg); [lra | lia | done..|].
    assert (c' = c) as -> by congruence. lra.
Qed.

End loop_moves.

Lemma running_elos_bounded_moves_witness :
  ∃ st, @running_elos merge_argsort_R 3 [[10; 5; 20]] = Some st
        ∧ (∀ i p row row' x y,
             (i < 1)%nat →
             elos st !! i = Some row → elos st !! S i = Some row' →
             row !! p = Some x → row' !! p = Some y →
             - Rmax (0.99 ^ i * 20) 1 < y - x < Rmax (0.99 ^ i * 20) 1)
        ∧ (∀ n p row x,
             elos st !! n = Some row → row !! p = Some x →
             1500 + INR p - 20 * INR n <= x <= 1500 + INR p + 20 * INR n).
Proof.
  apply (@running_elos_bounded_moves merge_argsort_R 3 [[10; 5; 20]]).
  apply rectangular_one_game.
Defined.

Lemma running_elos_winner_gains_witness :
  ∃ st, @running_elos merge_argsort_R 3 [[10; 5; 20]] = Some st
        ∧ ∀ i s a sa, [[10; 5; 20]] !! i = Some s → s !! a = Some sa →
            ∃ row row' x x',
              elos st !! i = Some row ∧ elos st !! S i = Some row'
              ∧ row !! a = Some x ∧ row' !! a = Some x'
              ∧ ((∀ b y, b ≠ a → s !! b = Some y → y < sa) → x < x')
              ∧ ((∀ b y, b ≠ a → s !! b = Some y → sa < y) → x' < x).
Proof.
  apply (@running_elos_winner_gains merge_argsort_R 3 [[10; 5; 20]]).
  - apply rectangular_one_game.
  - lia.
Defined.

(** ** Edge cases of the pass *)

Section loop_edges.
Context `{!Np.Argsort R Rle}.

(** X12: a table with a single player is not an error: every row of the
    history is [[1500]]. *)
Theorem running_elos_single_player (scores : list (list R)) :
  rectangular 1 scores →
  ∃ st, running_elos 1 scores = Some st
        ∧ length (elos st) = (length scores + 1)%nat
        ∧ ∀ i row, elos st !! i = Some row → row = [1500].
Proof.
  intros Hrect.
  destruct (elo_after_recurrence (length scores) 1 scores Hrect)
    as (st & Hst & (Hlen & _ & Hrow0 & _) & Hrec); [lia|].
  exists st. rewrite running_elos_after. split_and!; [done..|].
  intros i. induction i as [|i IH]; intros row Hrow.
  - rewrite Hrow0 in Hrow. injection Hrow as <-.
    unfold seed. simpl. change (Z.of_nat 0) with 0%Z. f_equal. lra.
  - assert (S i < length (elos st))%nat as Hi by (by eapply lookup_lt_Some).
    destruct (lookup_lt_is_Some_2 scores i) as [s Hs]; [lia|].
    destruct (Hrec i s ltac:(lia) Hs) as (r & change & Hr & Hchange & _ & Hr').
    rewrite (IH r Hr) in Hchange, Hr'.
    unfold update_elos in Hchange. simpl in Hchange. injection Hchange as <-.
    rewrite Hrow in Hr'. injection Hr' as ->. simpl. f_equal. lra.
Qed.

(** X13: the history is causal.  The rows up to [n] do not depend on the
    games after [n]: they are the rows the pass computes on the first [n]
    games alone. *)
Theorem running_elos_prefix (num_players n : nat) (scores : list (list R)) :
  rectangular num_players scores → (n ≤ length scores)%nat →
  ∃ st st', running_elos num_players scores = Some st
            ∧ running_elos num_players (take n scores) = Some st'
            ∧ ∀ i, (i ≤ n)%nat → elos st !! i = elos st' !! i.
Proof.
  intros Hrect Hn.
  assert (rectangular num_players (take n scores)) as Hrect'
    by (by apply Forall_take).
  destruct (elo_after_recurrence (length scores) num_players scores Hrect)
    as (st & Hst & (_ & _ & Hrow0 & _) & Hrec); [lia|].
  destruct (elo_after_recurrence (length (take n scores)) num_players
              (take n scores) Hrect')
    as (st' & Hst' & (_ & _ & Hrow0' & _) & Hrec'); [lia|].
  exists st, st'. rewrite !running_elos_after. split_and!; [done..|].
  intros i. induction i as [|i IH]; intros Hi; [congruence|].
  destruct (lookup_lt_is_Some_2 scores i) as [s Hs]; [lia|].
  assert (take n scores !! i = Some s) as Hs'.
  { by rewrite lookup_take_lt by lia. }
  destruct (Hrec i s ltac:(lia) Hs) as (r & c & Hr & Hc & _ & Hr1).
  destruct (Hrec' i s) as (r' & c' & Hr' & Hc' & _ & Hr1'); [|done|].
  { rewrite length_take. lia. }
  rewrite Hr1, Hr1'.
  assert (r = r') as <- by (specialize (IH ltac:(lia)); congruence).
  congruence.
Qed.

End loop_edges.

Lemma running_elos_single_player_witness :
  ∃ st, @running_elos merge_argsort_R 1 [[7]; [3]] = Some st
        ∧ length (elos st) = (2 + 1)%nat
        ∧ ∀ i row, elos st !! i = Some row → row = [1500].
Proof.
  apply (@running_elos_single_player merge_argsort_R [[7]; [3]]).
  by repeat constructor.
Defined.

Lemma running_elos_prefix_witness :
  ∃ st st', @running_elos merge_argsort_R 1 [[7]; [3]] = Some st
            ∧ @running_elos merge_argsort_R 1 (take 1 [[7]; [3]]) = Some st'
            ∧ ∀ i, (i ≤ 1)%nat → elos st !! i = elos st' !! i.
Proof.
  apply (@running_elos_prefix merge_argsort_R 1 1 [[7]; [3]]).
  - by repeat constructor.
  - simpl. lia.
Defined.

(** * Further parts of [main] *)

(** ** The dense ranks of a game (line 23) *)

Section ranks_perm.
Context `{!Np.Argsort R Rle} `{!Np.Argsort Z Z.le}.

(** X14: the dense ranks of a game are a permutation of [1 .. P]: every
    rank is given to exactly one player, also when scores are tied. *)
Theorem ranks_row_permutation (num_players : nat) (s : list R) :
  length s = num_players →
  ranks_row num_players s ≡ₚ Z.of_nat <$> seq 1 num_players.
Proof.
  intros HP. unfold ranks_row.
  destruct (Np.argsort_sorts (Np.argsort s)) as [Hq _].
  rewrite argsort_length, HP in Hq. rewrite Hq.
  apply NoDup_Permutation.
  - apply NoDup_fmap_2; [intros x y; lia | apply arange_NoDup].
  - apply NoDup_fmap_2; [apply _ | apply NoDup_seq].
  - intros x. rewrite !list_elem_of_fmap. split.
    + intros (y & -> & Hy). apply arange_elem in Hy as (i & -> & Hi).
      exists (num_players - i)%nat. split; [lia|]. apply elem_of_seq. lia.
    + intros (i & -> & Hi). apply elem_of_seq in Hi.
      exists (Z.of_nat (num_players - i)). split; [lia|].
      apply arange_elem. exists (num_players - i)%nat. split; [done | lia].
Qed.

End ranks_perm.

Lemma ranks_row_permutation_witness :
  @ranks_row merge_argsort_R merge_argsort_Z 3 [10; 5; 20]
  ≡ₚ Z.of_nat <$> seq 1 3.
Proof.
  apply (@ranks_row_permutation merge_argsort_R merge_argsort_Z 3 [10; 5; 20]).
  reflexivity.
Defined.

(** ** The verdict on the test condition (lines 59-65)

    [p_values] holds one p-value for each player other than player 0.  The
    tests that produce them belong to scipy and are not modelled; the
    verdict is a function of the p-values alone.  A p-value is a number or
    NaN (scipy returns NaN on a table without differences), and every
    comparison with NaN is false. *)

Inductive pvalue := NaN | Num (p : R).

#[global] Instance Rlt_dec_rel : RelDecision Rlt := Rlt_dec.

(** [p < c] and [p > c] on a p-value. *)
Definition pvalue_lt (p : pvalue) (c : R) : Prop :=
  match p with NaN => False | Num x => x < c end.

Definition pvalue_gt (p : pvalue) (c : R) : Prop :=
  match p with NaN => False | Num x => c < x end.

#[global] Instance pvalue_lt_dec p c : Decision (pvalue_lt p c).
Proof. destruct p; simpl; apply _. Defined.

#[global] Instance pvalue_gt_dec p c : Decision (pvalue_gt p c).
Proof. destruct p; simpl; apply _. Defined.

Definition verdict (p_values : list pvalue) : string :=
  if decide (Forall (λ p, pvalue_lt p 0.05) p_values)
  then "Test condition is an improvement!"
  else if decide (Forall (λ p, pvalue_gt p 0.95) p_values)
  then "Test condition is a regression!"
  else "Test condition is inconclusive.".

(** X15: the three verdicts.  An improvement is announced exactly when every
    p-value is a number below 0.05, which includes the table with no other
    player (no p-values at all); a regression exactly when there is at least
    one p-value and all are numbers above 0.95; and the test is inconclusive
    exactly when some p-value is not below 0.05 (NaN or at least 0.05) and
    some p-value is not above 0.95 (NaN or at most 0.95).  So a NaN among
    the p-values always gives "inconclusive". *)
Theorem verdict_cases (p_values : list pvalue) :
  (verdict p_values = "Test condition is an improvement!"
   ↔ Forall (λ p, ∃ x, p = Num x ∧ x < 0.05) p_values)
  ∧ (verdict p_values = "Test condition is a regression!"
     ↔ p_values ≠ [] ∧ Forall (λ p, ∃ x, p = Num x ∧ 0.95 < x) p_values)
  ∧ (verdict p_values = "Test condition is inconclusive."
     ↔ Exists (λ p, p = NaN ∨ ∃ x, p = Num x ∧ 0.05 <= x) p_values
       ∧ Exists (λ p, p = NaN ∨ ∃ x, p = Num x ∧ x <= 0.95) p_values)
  ∧ (NaN ∈ p_values → verdict p_values = "Test condition is inconclusive.").
Proof.
  assert (∀ p c, pvalue_lt p c ↔ ∃ x, p = Num x ∧ x < c) as Hlt_iff.
  { intros [|x] c; simpl; split; [done | by intros (? & [=] & _) | by exists x |].
    by intros (? & [= <-] & ?). }
  assert (∀ p c, pvalue_gt p c ↔ ∃ x, p = Num x ∧ c < x) as Hgt_iff.
  { intros [|x] c; simpl; split; [done | by intros (? & [=] & _) | by exists x |].
    by intros (? & [= <-] & ?). }
  assert (∀ p c, ¬ pvalue_lt p c ↔ p = NaN ∨ ∃ x, p = Num x ∧ c <= x) as Hnlt.
  { intros [|x] c; simpl; split.
    - by left.
    - by intros _ [].
    - intros ?. right. exists x. split; [done | lra].
    - intros [[=]|(? & [= <-] & ?)]. lra. }
  assert (∀ p c, ¬ pvalue_gt p c ↔ p = NaN ∨ ∃ x, p = Num x ∧ x <= c) as Hngt.
  { intros [|x] c; simpl; split.
    - by left.
    - by intros _ [].
    - intros ?. right. exists x. split; [done | lra].
    - intros [[=]|(? & [= <-] & ?)]. lra. }
  assert (Forall (λ p, pvalue_lt p 0.05) p_values
          ↔ Forall (λ p, ∃ x, p = Num x ∧ x < 0.05) p_values) as <-.
  { apply Forall_proper; [|done]. intros p. apply Hlt_iff. }
  assert (Forall (λ p, pvalue_gt p 0.95) p_values
          ↔ Forall (λ p, ∃ x, p = Num x ∧ 0.95 < x) p_values) as <-.
  { apply Forall_proper; [|done]. intros p. apply Hgt_iff. }
  assert (Exists (λ p, ¬ pvalue_lt p 0.05) p_values
          ↔ Exists (λ p, p = NaN ∨ ∃ x, p = Num x ∧ 0.05 <= x) p_values) as <-.
  { apply Exists_proper; [|done]. intros p. apply Hnlt. }
  assert (Exists (λ p, ¬ pvalue_gt p 0.95) p_values
          ↔ Exists (λ p, p = NaN ∨ ∃ x, p = Num x ∧ x <= 0.95) p_values) as <-.
  { apply Exists_proper; [|done]. intros p. apply Hngt. }
  assert (∀ p, pvalue_lt p 0.05 → pvalue_gt p 0.95 → False) as Hexcl.
  { intros [|x]; simpl; [done | lra]. }
  assert (verdict p_values = "Test condition is inconclusive."
          ↔ Exists (λ p, ¬ pvalue_lt p 0.05) p_values
            ∧ Exists (λ p, ¬ pvalue_gt p 0.95) p_values) as Hinc.
  { unfold verdict.
    destruct (decide (Forall (λ p, pvalue_lt p 0.05) p_values)) as [Hlt|Hlt];
      [|destruct (decide (Forall (λ p, pvalue_gt p 0.95) p_values)) as [Hgt|Hgt]].
    - split; [done|]. intros [Hex _].
      apply Exists_exists in Hex as (p & Hp & Hn).
      destruct Hn. by apply (proj1 (Forall_forall _ _) Hlt p).
    - split; [done|]. intros [_ Hex].
      apply Exists_exists in Hex as (p & Hp & Hn).
      destruct Hn. by apply (proj1 (Forall_forall _ _) Hgt p).
    - split; [|done]. intros _.
      split; apply not_Forall_Exists; (done || apply _). }
  split; [|split; [|split]].
  - unfold verdict.
    destruct (decide (Forall (λ p, pvalue_lt p 0.05) p_values)) as [Hlt|Hlt];
      [done|].
    destruct (decide (Forall (λ p, pvalue_gt p 0.95) p_values)); by split.
  - unfold verdict.
    destruct (decide (Forall (λ p, pvalue_lt p 0.05) p_values)) as [Hlt|Hlt];
      [|destruct (decide (Forall (λ p, pvalue_gt p 0.95) p_values)) as [Hgt|Hgt]].
    + split; [done|]. intros [Hne Hgt]. destruct p_values as [|p ps]; [done|].
      apply Forall_cons in Hlt as [? _], Hgt as [? _]. by destruct (Hexcl p).
    + split; [|done]. intros _. split; [|done].
      intros ->. apply Hlt. constructor.
    + split; [done | by intros [_ ?]].
  - exact Hinc.
  - intros Hnan. apply Hinc.
    split; apply Exists_exists; exists NaN; (split; [done|]); by intros [].
Qed.

(** ** The final listing (lines 74-76)

    [sorted(zip(elos[-1], agent_names), reverse=True)]: the pairs of a final
    rating and a player, in descending order of Python's comparison of
    tuples.  The players are the column labels [0 .. P-1] of a table read
    without a header.  The pairs are pairwise different, so the listing does
    not depend on how [sorted] treats equal items (X16 proves it).  The
    formatting of the printed lines is not modelled. *)

(** [x <= y] on tuples of a float and an int. *)
Definition tuple_le (x y : R * Z) : Prop :=
  x.1 < y.1 ∨ (x.1 = y.1 ∧ (x.2 ≤ y.2)%Z).

#[global] Instance tuple_le_dec : RelDecision tuple_le.
Proof. intros x y. unfold tuple_le. apply _. Defined.

Definition sorted_reverse (l : list (R * Z)) : list (R * Z) :=
  merge_sort (flip tuple_le) l.

Definition final_listing (num_players : nat) (st : loop_state)
    : option (list (R * Z)) :=
  final ← Py.getitem (elos st) (-1);
  Some (sorted_reverse (zip final (Np.arange num_players))).

#[global] Instance tuple_ge_total : Total (flip tuple_le).
Proof.
  intros [e1 n1] [e2 n2]. unfold flip, tuple_le. simpl.
  destruct (Rtotal_order e1 e2) as [?|[->|?]]; [by right; left | | by left; left].
  destruct (Z.le_ge_cases n1 n2); [right | left]; by right.
Qed.

#[global] Instance tuple_ge_refl : Reflexive (flip tuple_le).
Proof. intros [e n]. unfold flip, tuple_le. by right. Qed.

#[global] Instance tuple_ge_trans : Transitive (flip tuple_le).
Proof.
  intros [e1 n1] [e2 n2] [e3 n3]. unfold flip, tuple_le. simpl.
  intros [?|[-> ?]] [?|[-> ?]]; try (left; lra); try (by left).
  right. split; [done | lia].
Qed.

#[global] Instance tuple_ge_antisymm : AntiSymm (=) (flip tuple_le).
Proof.
  intros [e1 n1] [e2 n2]. unfold flip, tuple_le. simpl.
  intros [?|[-> ?]] [?|[? ?]]; try lra. f_equal. lia.
Qed.

Section listing.
Context `{!Np.Argsort R Rle}.

(** X16: the final listing.  On a rectangular score table the listing is
    made from the last row of the history (the ratings after the last game);
    it names every player exactly once, by non-increasing rating and, among
    equal ratings, by decreasing player index; and it is the only
    arrangement of the pairs in that order. *)
Theorem final_listing_sorted (num_players : nat) (scores : list (list R)) :
  rectangular num_players scores →
  ∃ st final board,
    running_elos num_players scores = Some st
    ∧ elos st !! length scores = Some final
    ∧ final_listing num_players st = Some board
    ∧ board ≡ₚ zip final (Np.arange num_players)
    ∧ board.*2 ≡ₚ Np.arange num_players
    ∧ Sorted (flip tuple_le) board
    ∧ (∀ i j x y, (i ≤ j)%nat → board !! i = Some x → board !! j = Some y →
         y.1 <= x.1)
    ∧ (∀ board', board' ≡ₚ board → Sorted (flip tuple_le) board' →
         board' = board).
Proof.
  intros Hrect.
  destruct (elo_after_inv (length scores) num_players scores Hrect)
    as (st & Hst & Hlen & Hrows & _ & Hsums & _); [lia|].
  destruct (Hsums (length scores)) as (final & Hfinal & _); [lia|].
  pose proof (Forall_lookup_1 _ _ _ _ Hrows Hfinal) as HfP. simpl in HfP.
  exists st, final, (sorted_reverse (zip final (Np.arange num_players))).
  rewrite running_elos_after.
  assert (Sorted (flip tuple_le)
            (sorted_reverse (zip final (Np.arange num_players)))) as Hsorted
    by apply (Sorted_merge_sort _).
  assert (sorted_reverse (zip final (Np.arange num_players))
          ≡ₚ zip final (Np.arange num_players)) as Hperm
    by apply merge_sort_Permutation.
  split_and!; [done | done | | done | | done | |].
  - unfold final_listing, Py.getitem, Py.index. rewrite Hlen.
    rewrite bool_decide_eq_false_2 by lia.
    rewrite bool_decide_eq_true_2 by lia. simpl.
    replace (Z.to_nat (-1 + Z.of_nat (length scores + 1))) with (length scores)
      by lia.
    by rewrite Hfinal.
  - rewrite Hperm. rewrite snd_zip; [done|]. rewrite arange_length. lia.
  - intros i j x y Hij Hx Hy.
    apply Sorted_StronglySorted in Hsorted; [|apply _].
    assert (flip tuple_le x y) as Hxy.
    { by eapply (StronglySorted_lookup_le (flip tuple_le) _ i j). }
    unfold flip, tuple_le in Hxy. destruct Hxy as [?|[-> _]]; lra.
  - intros board' Hperm' Hsorted'.
    by apply (Sorted_unique (flip tuple_le)).
Qed.

End listing.

Lemma final_listing_sorted_witness :
  ∃ st final board,
    @running_elos merge_argsort_R 3 [[10; 5; 20]] = Some st
    ∧ elos st !! length [[10; 5; 20]] = Some final
    ∧ final_listing 3 st = Some board
    ∧ board ≡ₚ zip final (Np.arange 3)
    ∧ board.*2 ≡ₚ Np.arange 3
    ∧ Sorted (flip tuple_le) board
    ∧ (∀ i j x y, (i ≤ j)%nat → board !! i = Some x → board !! j = Some y →
         y.1 <= x.1)
    ∧ (∀ board', board' ≡ₚ board → Sorted (flip tuple_le) board' →
         board' = board).
Proof.
  apply (@final_listing_sorted merge_argsort_R 3 [[10; 5; 20]]).
  apply rectangular_one_game.
Defined.

(** * The rating functions in binary64

    The theorems above read Python floats as real numbers.  This part reads
    the same lines in IEEE binary64, with Rocq's primitive floats, to show
    where rounding makes the running code differ from the real-number
    reading.  [10 ** x] is computed by the platform's [pow]; it enters as a
    parameter [pow10], and a statement that needs one of its values assumes
    that value (the correctly rounded one, which CPython returns).  On
    overflow numpy's [float64], the type of the ratings in [main], yields
    infinity.  Decimal constants denote the nearest binary64 value, as in
    Python. *)

#[local] Set Warnings "-inexact-float".

Module B64.
Import PrimFloat.
Local Open Scope float_scope.

(** The exact value of a finite binary64 number. *)
Definition exact (x : float) : option QArith_base.Q :=
  match FloatOps.Prim2SF x with
  | SpecFloat.S754_zero _ => Some (QArith_base.inject_Z 0)
  | SpecFloat.S754_finite s m e =>
      Some (QArith_base.Qmult
              (QArith_base.inject_Z (if s then Zneg m else Zpos m))
              (QArith_base.Qpower (QArith_base.inject_Z 2) e))
  | _ => None
  end.

(** The exact sum of a vector of finite binary64 numbers. *)
Fixpoint exact_sum (l : list float) : option QArith_base.Q :=
  match l with
  | [] => Some (QArith_base.inject_Z 0)
  | x :: l' =>
      q ← exact x; q' ← exact_sum l'; Some (Qreduction.Qred (QArith_base.Qplus q q'))
  end.

Record loop_state := LoopState { elos : list (list float); k : float }.

Section with_platform.

Variable pow10 : float → float.
Variable argsort : list float → list Z.

Definition _elo_change (rating_loser rating_winner k : float) : float :=
  let gap := rating_winner - rating_loser in
  k / (1 + pow10 (gap / 400)).

Definition update_elos_body (current_elos : list float) (ranking : list Z)
    (elo_k : float) (elo_change : list float) (j : nat) : option (list float) :=
  idx_loser ← Py.getitem ranking (Z.of_nat j - 1);
  idx_winner ← Py.getitem ranking (Z.of_nat j);
  rating_loser ← Py.getitem current_elos idx_loser;
  rating_winner ← Py.getitem current_elos idx_winner;
  let delta := _elo_change rating_loser rating_winner elo_k in
  old_loser ← Py.getitem elo_change idx_loser;
  elo_change ← Py.setitem elo_change idx_loser (old_loser - delta);
  old_winner ← Py.getitem elo_change idx_winner;
  Py.setitem elo_change idx_winner (old_winner + delta).

Definition update_elos (current_elos : list float) (ranking : list Z)
    (elo_k : float) : option (list float) :=
  let num_players := length current_elos in
  let elo_change := replicate num_players 0 in
  Py.for_each (update_elos_body current_elos ranking elo_k)
    (Py.range 1 num_players) elo_change.

(** [1500 + np.arange(num_players)] *)
Definition seed (num_players : nat) : list float :=
  (λ i, 1500 + of_uint63 (Uint63Axioms.of_Z i)) <$> Np.arange num_players.

Definition elo_init (num_games num_players : nat) : option loop_state :=
  let elos := replicate (num_games + 1) (replicate num_players 0) in
  elos ← Py.setitem elos 0 (seed num_players);
  Some (LoopState elos 20).

(** [max(a, 1)]: Python returns [a] unless [1 > a]. *)
Definition max_1 (a : float) : float := if a <? 1 then 1 else a.

Definition elo_game (st : loop_state) (g : nat * list float)
    : option loop_state :=
  let '(i, s) := g in
  current ← Py.getitem (elos st) (Z.of_nat i);
  change ← update_elos current (argsort s) (k st);
  elos' ← Py.setitem (elos st) (Z.of_nat i + 1) (zip_with add current change);
  Some (LoopState elos' (max_1 (0.99 * k st))).

Definition running_elos (num_players : nat) (scores : list (list float))
    : option loop_state :=
  st ← elo_init (length scores) num_players;
  Py.for_each elo_game (Py.enumerate scores) st.

End with_platform.

(** One game between two players, as [update_elos] runs it in binary64
    when [pow10] is exact at the exponent met. *)
Example update_elos_1500_1900 pow10 :
  pow10 1 = 10 →
  update_elos pow10 [1500; 1900] [0; 1]%Z 20
  = Some [-1.8181818181818181; 1.8181818181818181].
Proof. intros H1. vm_compute. rewrite H1. reflexivity. Qed.

(** C5, as stated, fails in binary64.  With the loser 6800 points above the
    winner, [1 + 10 ** -17] rounds to 1 and the transfer is [k] itself; with
    the winner 200000 points above the loser [10 ** 500] overflows and the
    transfer is 0.  Neither [delta < k] nor [0 < delta] holds there. *)
Lemma delta_reaches_k_and_0 :
  (∀ pow10, pow10 (-17) = 1e-17 → _elo_change pow10 6800 0 20 = 20)
  ∧ (20 <? 20) = false
  ∧ (∀ pow10, pow10 500 = infinity → _elo_change pow10 0 200000 20 = 0)
  ∧ (0 <? 0) = false.
Proof.
  split_and!; [|reflexivity| |reflexivity].
  - intros pow10 H. vm_compute. rewrite H. reflexivity.
  - intros pow10 H. vm_compute. rewrite H. reflexivity.
Qed.

(** C6, as stated, fails in binary64: for the ratings 1500 and 1900 and
    [k = 20] the two transfers are [20 / 11] and [20 / 1.1], rounded, and
    add up to 19.999999999999996, not to 20. *)
Lemma swapped_deltas_miss_k :
  (∀ pow10, pow10 1 = 10 → pow10 (-1) = 0.1 →
     _elo_change pow10 1500 1900 20 + _elo_change pow10 1900 1500 20
     = 19.999999999999996)
  ∧ (19.999999999999996 =? 20) = false.
Proof.
  split; [|reflexivity].
  intros pow10 H1 H2. vm_compute. rewrite H1, H2. reflexivity.
Qed.

(** C10, as stated, fails in binary64.  On the table of two games with
    scores [[1; 3; 2]] and [[1; 2; 3]] the stored rows are the ones below;
    rows 0 and 1 sum to 4503 exactly, row 2 sums to [4503 + 2 ^ -42]. *)
Lemma rows_drift :
  (∀ pow10 argsort,
     pow10 0.005 = 1.0115794542598986 →
     pow10 (-0.0025) = 0.9942600739529567 →
     pow10 0.05242804560671743 = 1.1283089825523054 →
     pow10 (-0.022787821149656225) = 0.9488819356982954 →
     argsort [1; 3; 2] = [0; 2; 1]%Z →
     argsort [1; 2; 3] = [0; 1; 2]%Z →
     elos <$> running_elos pow10 argsort 3 [[1; 3; 2]; [1; 2; 3]]
     = Some [[1500; 1501; 1502];
             [1490.0575639914962; 1511.0287822341832; 1501.9136537743207];
             [1480.7544035188776; 1510.1722713396878; 1512.073325141435]])
  ∧ exact_sum [1500; 1501; 1502] = Some (QArith_base.inject_Z 4503)
  ∧ exact_sum [1490.0575639914962; 1511.0287822341832; 1501.9136537743207]
    = Some (QArith_base.inject_Z 4503)
  ∧ exact_sum [1480.7544035188776; 1510.1722713396878; 1512.073325141435]
    = Some (QArith_base.Qmake 19804403439501313 4398046511104)
  ∧ ¬ QArith_base.Qeq (QArith_base.Qmake 19804403439501313 4398046511104)
        (QArith_base.inject_Z 4503).
Proof.
  split_and!; [|reflexivity..|].
  - intros pow10 argsort H1 H2 H3 H4 Ha Hb.
    unfold running_elos, elo_init. cbn [Py.enumerate length seq zip_with].
    vm_compute. rewrite Ha. vm_compute. rewrite H1, H2. vm_compute.
    rewrite Hb. vm_compute. rewrite H3, H4. reflexivity.
  - intros H. vm_compute in H. discriminate.
Qed.

End B64.
